(** * The faceted search-query parser of the Hypothesis client

    A shallow embedding of [src/sidebar/util/search-filter.js]
    ([splitTerm], [removeSurroundingQuotes], [tokenize], [toObject],
    [generateFacetedFilter]) and the properties of it that the design
    document states.

    Modelling choices.
    - A JavaScript string is a sequence of UTF-16 code units.  The model
      uses [string], whose characters are the code units below 256
      (the Latin-1 range); [\s], [\d] and [toLowerCase] are given on that
      range.
    - A JavaScript object used as a map is a [gmap string _].
    - The two regular expressions of the source are kept as syntax trees
      and run by a backtracking matcher that follows the order in which
      the ECMAScript matcher tries alternatives and repetitions.
    - A JavaScript number is tracked while it is a non-negative integer
      up to 2^53, where the arithmetic of doubles is exact. *)

From stdpp Require Import gmap strings list fin_maps.
From Stdlib Require Import ZArith NArith Ascii String Lia.

Open Scope string_scope.

(** The double-quote character, by its code. *)
Abbreviation dquote := ("034"%char).

(** ** JavaScript string primitives *)

Module JS.

(** [s.indexOf(c)] for a one-character needle: the index of the first
    occurrence, or -1. *)
Fixpoint indexOf (c : ascii) (s : string) : Z :=
  match s with
  | EmptyString => (-1)%Z
  | String a s' =>
      if Ascii.eqb a c then 0%Z
      else match indexOf c s' with
           | Zneg _ => (-1)%Z
           | i => Z.succ i
           end
  end.

(** The clamping of a relative index that [slice] performs: a negative
    index counts from the end, and the result lies in [0, len]. *)
Definition clamp (len : nat) (i : Z) : nat :=
  if (i <? 0)%Z then Z.to_nat (Z.max (Z.of_nat len + i) 0)
  else Nat.min (Z.to_nat i) len.

(** [s.slice(from, to)]. *)
Definition slice (s : string) (from to : Z) : string :=
  let len := String.length s in
  let a := clamp len from in
  let b := clamp len to in
  substring a (b - a) s.

(** [s.slice(from)]. *)
Definition sliceFrom (s : string) (from : Z) : string :=
  let len := String.length s in
  let a := clamp len from in
  substring a (len - a) s.

(** [l.includes(x)] on an array of strings. *)
Definition includes (l : list string) (x : string) : bool :=
  existsb (String.eqb x) l.
Global Arguments includes : simpl never.

(** Truthiness of a string: only the empty string is falsy. *)
Definition truthy (s : string) : bool :=
  match s with EmptyString => false | _ => true end.

(** Truthiness of a value that is a string, [null] or [undefined]. *)
Definition truthy_opt (o : option string) : bool :=
  match o with Some s => truthy s | None => false end.

Definition code (c : ascii) : N := N_of_ascii c.

(** [toLowerCase] on one code unit below 256: A-Z, and the Latin-1
    capitals U+00C0..U+00DE except the multiplication sign U+00D7. *)
Definition lower (c : ascii) : ascii :=
  let n := code c in
  if ((65 <=? n) && (n <=? 90))%N then ascii_of_N (n + 32)
  else if ((192 <=? n) && (n <=? 222) && negb (n =? 215))%N
       then ascii_of_N (n + 32)
  else c.

Fixpoint toLowerCase (s : string) : string :=
  match s with
  | EmptyString => EmptyString
  | String c s' => String (lower c) (toLowerCase s')
  end.

(** The character class [\s] on code units below 256: tab, line feed,
    vertical tab, form feed, carriage return, space, no-break space. *)
Definition is_space (c : ascii) : bool :=
  let n := code c in
  ((9 <=? n) && (n <=? 13) || (n =? 32) || (n =? 160))%N.

(** The character class [\d]. *)
Definition is_digit (c : ascii) : bool :=
  let n := code c in ((48 <=? n) && (n <=? 57))%N.

(** Numbers.  [Int n] is the double that equals the integer [n], used
    for 0 <= n <= 2^53 only; [Untracked] stands for every other double
    (a rounded large value, an infinity, NaN). *)
Inductive number :=
| Int (n : N)
| Untracked.

Definition maxExact : N := 2 ^ 53.

Definition int (n : N) : number :=
  if (n <=? maxExact)%N then Int n else Untracked.

(** The product of two doubles: exact when both are tracked integers
    and the product does not exceed 2^53. *)
Definition mul (a b : number) : number :=
  match a, b with
  | Int x, Int y => int (x * y)
  | _, _ => Untracked
  end.

Definition digitValue (c : ascii) : N := code c - 48.

Fixpoint decimal (acc : N) (s : string) : N :=
  match s with
  | EmptyString => acc
  | String c s' => decimal (10 * acc + digitValue c) s'
  end.

(** [parseFloat(s)] for a string of decimal digits; the other strings,
    on which the source never calls it, are left untracked. *)
Definition parseFloat (s : string) : number :=
  if truthy s && forallb is_digit (list_ascii_of_string s)
  then int (decimal 0 s) else Untracked.

End JS.

(** ** Regular expressions

    The fragment of ECMAScript regular expressions that the source uses,
    and a backtracking matcher for it.  The matcher works on the rest of
    the input and the captures so far; the continuation [k] is what must
    still match after the current node. *)

Module Regex.

Inductive regex :=
| Eps                              (* the empty pattern *)
| Chr (p : ascii -> bool)          (* one character of a class *)
| Bos                              (* ^  *)
| Eos                              (* $  *)
| Cat (r1 r2 : regex)              (* r1 r2 *)
| Alt (r1 r2 : regex)              (* r1|r2, r1 tried first *)
| Star (r : regex)                 (* r*, greedy *)
| Group (i : nat) (r : regex).     (* the i-th capturing group *)

Definition Plus (r : regex) : regex := Cat r (Star r).   (* r+ *)
Definition Opt (r : regex) : regex := Alt r Eps.         (* r? *)
Definition chr (c : ascii) : regex := Chr (Ascii.eqb c).
Definition notChr (c : ascii) : regex := Chr (fun a => negb (Ascii.eqb c a)).

(** A literal word. *)
Fixpoint lit (w : string) : regex :=
  match w with
  | EmptyString => Eps
  | String c w' => Cat (chr c) (lit w')
  end.

(** The first branch that yields a result. *)
Definition orElse {A} (x y : option A) : option A :=
  match x with Some _ => x | None => y end.

Abbreviation captures := (gmap nat string).
Definition result := option (string * captures).
Definition cont := string -> captures -> result.

(** What was consumed between the suffix [s] and its suffix [s1]. *)
Definition consumed (s s1 : string) : string :=
  substring 0 (String.length s - String.length s1) s.

Section Exec.
Variable input : string.

(** [exec r s c k]: match [r] at the suffix [s] of [input], then [k].
    In [Star] an iteration that consumes nothing is rejected, as in
    ECMAScript, so at most [length s] iterations can follow and the
    counter [n] never cuts a match short.  ECMAScript also clears, at
    each iteration, the captures of the groups under the star; the two
    expressions of the source have no group under a star. *)
Fixpoint exec (r : regex) (s : string) (c : captures) (k : cont)
  {struct r} : result :=
  match r with
  | Eps => k s c
  | Chr p =>
      match s with
      | String a s' => if p a then k s' c else None
      | EmptyString => None
      end
  | Bos =>
      if Nat.eqb (String.length s) (String.length input) then k s c
      else None
  | Eos => match s with EmptyString => k s c | _ => None end
  | Cat r1 r2 => exec r1 s c (fun s1 c1 => exec r2 s1 c1 k)
  | Alt r1 r2 => orElse (exec r1 s c k) (exec r2 s c k)
  | Star r1 =>
      (fix loop (n : nat) (s : string) (c : captures) : result :=
         match n with
         | O => k s c
         | S n' =>
             orElse
               (exec r1 s c (fun s1 c1 =>
                  if Nat.ltb (String.length s1) (String.length s)
                  then loop n' s1 c1 else None))
               (k s c)
         end) (String.length s) s c
  | Group i r1 =>
      exec r1 s c (fun s1 c1 => k s1 (<[i := consumed s s1]> c1))
  end.

Definition accept : cont := fun s c => Some (s, c).

(** The leftmost position at or after the suffix [s] where [r]
    matches: the suffix where the match starts, the rest after the
    match, and the captures. *)
Fixpoint search (r : regex) (s : string)
  : option (string * string * captures) :=
  match exec r s ∅ accept with
  | Some (rest, c) => Some (s, rest, c)
  | None =>
      match s with
      | EmptyString => None
      | String _ s' => search r s'
      end
  end.

(** The loop of [match] with the [g] flag: all matches, left to
    right, each search starting where the previous match ended (one
    further after an empty match). *)
Fixpoint matchesFrom (fuel : nat) (r : regex) (s : string) : list string :=
  match fuel with
  | O => []
  | S fuel' =>
      match search r s with
      | None => []
      | Some (at_, rest, _) =>
          let m := consumed at_ rest in
          m :: match m, rest with
               | EmptyString, EmptyString => []
               | EmptyString, String _ rest' => matchesFrom fuel' r rest'
               | _, _ => matchesFrom fuel' r rest
               end
      end
  end.
End Exec.

(** [input.match(r)] without the [g] flag: the whole match and the
    captures, or [None] for [null]. *)
Definition matchOne (r : regex) (input : string)
  : option (string * captures) :=
  match search input r input with
  | Some (at_, rest, c) => Some (consumed at_ rest, c)
  | None => None
  end.

(** [input.match(r)] with the [g] flag: the list of all matches, or
    [None] for [null] when there is none. *)
Definition matchAll (r : regex) (input : string) : option (list string) :=
  match matchesFrom input (S (String.length input)) r input with
  | [] => None
  | l => Some l
  end.

End Regex.

(** ** The parser *)

Import Regex.

(** The field names that [splitTerm] recognizes. *)
Definition fields : list string :=
  ["group"; "quote"; "since"; "tag"; "text"; "uri"; "user"].

(** [splitTerm(term)]: the pair of filter ([None] for [null]) and data. *)
Definition splitTerm (term : string) : option string * string :=
  let filter := JS.slice term 0 (JS.indexOf ":" term) in
  if negb (JS.truthy filter) then
    (None, term)
  else if JS.includes fields filter then
    let data := JS.sliceFrom term (Z.of_nat (String.length filter) + 1) in
    (Some filter, data)
  else
    (None, term).

(** [removeSurroundingQuotes(text)]. *)
Definition removeSurroundingQuotes (text : string) : string :=
  let start := JS.slice text 0 1 in
  let end_ := JS.sliceFrom text (-1) in
  if (String.eqb start (String dquote "") || String.eqb start "'")
     && String.eqb start end_
  then JS.slice text 1 (Z.of_nat (String.length text) - 1)
  else text.

(** The regular expression of [tokenize] (source line 67): one or more
    pieces, each a run of characters that are neither white space nor
    quotes, or a span between two double quotes, or a span between two
    single quotes; the spans hold no quote of their own kind. *)
Definition bareChar (c : ascii) : bool :=
  negb (JS.is_space c || Ascii.eqb c dquote || Ascii.eqb c "'").

Definition quotedSpan (q : ascii) : regex :=
  Cat (chr q) (Cat (Star (notChr q)) (chr q)).

Definition tokenPiece : regex :=
  Alt (Plus (Chr bareChar)) (Alt (quotedSpan dquote) (quotedSpan "'")).

Definition tokenRegex : regex := Plus tokenPiece.

(** The last stage of [tokenize]: strip quotes from a field value. *)
Definition stripFieldValue (token : string) : string :=
  let '(filter, data) := splitTerm token in
  if JS.truthy_opt filter then
    default "" filter ++ ":" ++ removeSurroundingQuotes data
  else token.

(** [tokenize(searchText)]. *)
Definition tokenize (searchText : string) : list string :=
  match matchAll tokenRegex searchText with
  | None => []
  | Some tokenMatches =>
      map stripFieldValue
        (List.filter (fun token => Nat.ltb 0 (String.length token))
           (map removeSurroundingQuotes tokenMatches))
  end.

(** [backendFilter] of [toObject]. *)
Definition backendFilter (field : string) : string :=
  if String.eqb field "tag" then "tags" else field.

(** One round of the loop of [toObject].  [obj] starts as the empty
    object literal; the keys written are [any] and the backend names of
    the recognized fields, none of which is inherited from
    [Object.prototype], so [obj[backendField]] is the array stored under
    the key or [undefined]. *)
Definition toObjectStep (obj : gmap string (list string)) (term : string)
  : gmap string (list string) :=
  let '(field, data) := splitTerm term in
  let '(field, data) :=
    if negb (JS.truthy_opt field) then ("any", term)
    else (default "" field, data) in
  let backendField := backendFilter field in
  match obj !! backendField with
  | Some values => <[backendField := (values ++ [data])%list]> obj
  | None => <[backendField := [data]]> obj
  end.

(** [toObject(searchText)]. *)
Definition toObject (searchText : string) : gmap string (list string) :=
  let terms := tokenize searchText in
  fold_left toObjectStep terms ∅.

(** A term of a facet is a string, or a number in the [since] facet. *)
Inductive term :=
| Str (s : string)
| Num (n : JS.number).

Record Facet := { terms : list term; operator : string }.

(** The typedef [FocusFilter]: an object with an optional property
    [user]. *)
Module FocusFilter.
Record t := { user : option string }.
End FocusFilter.

(** The default value [{}] of the parameter [focusFilters]. *)
Definition noFocus : FocusFilter.t := {| FocusFilter.user := None |}.

(** The focus filter [{ user: u }]. *)
Definition focusOn (u : string) : FocusFilter.t :=
  {| FocusFilter.user := Some u |}.

(** The seven arrays that [generateFacetedFilter] fills. *)
Module Arrays.
Record t := {
  any : list term;
  quote : list term;
  since : list term;
  tag : list term;
  text : list term;
  uri : list term;
  user : list term
}.
End Arrays.
Import Arrays.

Definition secondsPerDay : N := 24 * 60 * 60.

Definition secondsPerUnit : gmap string N :=
  {[ "sec" := 1%N;
     "min" := 60%N;
     "hour" := (60 * 60)%N;
     "day" := secondsPerDay;
     "week" := (7 * secondsPerDay)%N;
     "month" := (30 * secondsPerDay)%N;
     "year" := (365 * secondsPerDay)%N ]}.

(** The regular expression of the [since] case:
    [/^(\d+)(sec|min|hour|day|week|month|year)?$/]. *)
Definition unitsRegex : regex :=
  Alt (lit "sec") (Alt (lit "min") (Alt (lit "hour") (Alt (lit "day")
  (Alt (lit "week") (Alt (lit "month") (lit "year")))))).

Definition sinceRegex : regex :=
  Cat Bos
 (Cat (Group 1 (Plus (Chr JS.is_digit)))
 (Cat (Opt (Group 2 unitsRegex))
      Eos)).

(** The body of the [since] case: the number to push, if any. *)
Definition sinceSeconds (term : string) : option JS.number :=
  let time := JS.toLowerCase (JS.sliceFrom term 6) in
  match matchOne sinceRegex time with
  | Some (_, groups) =>
      let value :=
        match groups !! 1 with
        | Some digits => JS.parseFloat digits
        | None => JS.Untracked
        end in
      let unit := if JS.truthy_opt (groups !! 2)
                  then default "" (groups !! 2) else "sec" in
      let perUnit :=
        match secondsPerUnit !! unit with
        | Some n => JS.Int n
        | None => JS.Untracked
        end in
      Some (JS.mul value perUnit)
  | None => None
  end.

(** One round of the loop of [generateFacetedFilter]. *)
Definition facetStep (a : Arrays.t) (term : string) : Arrays.t :=
  let filter := JS.slice term 0 (JS.indexOf ":" term) in
  let fieldValue := JS.sliceFrom term (Z.of_nat (String.length filter) + 1) in
  if String.eqb filter "quote" then
    {| any := any a; quote := (quote a ++ [Str fieldValue])%list;
       since := since a; tag := tag a; text := text a; uri := uri a;
       user := user a |}
  else if String.eqb filter "since" then
    match sinceSeconds term with
    | Some seconds =>
        {| any := any a; quote := quote a;
           since := (since a ++ [Num seconds])%list;
           tag := tag a; text := text a; uri := uri a; user := user a |}
    | None => a
    end
  else if String.eqb filter "tag" then
    {| any := any a; quote := quote a; since := since a;
       tag := (tag a ++ [Str fieldValue])%list; text := text a; uri := uri a;
       user := user a |}
  else if String.eqb filter "text" then
    {| any := any a; quote := quote a; since := since a;
       tag := tag a; text := (text a ++ [Str fieldValue])%list; uri := uri a;
       user := user a |}
  else if String.eqb filter "uri" then
    {| any := any a; quote := quote a; since := since a;
       tag := tag a; text := text a; uri := (uri a ++ [Str fieldValue])%list;
       user := user a |}
  else if String.eqb filter "user" then
    {| any := any a; quote := quote a; since := since a;
       tag := tag a; text := text a; uri := uri a;
       user := (user a ++ [Str fieldValue])%list |}
  else
    {| any := (any a ++ [Str term])%list; quote := quote a; since := since a;
       tag := tag a; text := text a; uri := uri a; user := user a |}.

(** The arrays before the loop. *)
Definition initialArrays (focusFilters : FocusFilter.t) : Arrays.t :=
  {| any := []; quote := []; since := []; tag := []; text := []; uri := [];
     user := if JS.truthy_opt (FocusFilter.user focusFilters)
             then [Str (default "" (FocusFilter.user focusFilters))] else [] |}.

(** The object literal that [generateFacetedFilter] returns. *)
Definition facetRecord (a : Arrays.t) : gmap string Facet :=
  {[ "any" := {| terms := any a; operator := "and" |};
     "quote" := {| terms := quote a; operator := "and" |};
     "since" := {| terms := since a; operator := "and" |};
     "tag" := {| terms := tag a; operator := "and" |};
     "text" := {| terms := text a; operator := "and" |};
     "uri" := {| terms := uri a; operator := "or" |};
     "user" := {| terms := user a; operator := "or" |} ]}.

(** [generateFacetedFilter(searchText, focusFilters)]. *)
Definition generateFacetedFilter (searchText : string)
    (focusFilters : FocusFilter.t) : gmap string Facet :=
  let terms := tokenize searchText in
  facetRecord (fold_left facetStep terms (initialArrays focusFilters)).

(** ** Definitions used in the statements *)

(** The longest prefix of [s] made of characters of the class [p], and
    what follows it. *)
Fixpoint takeWhile (p : ascii -> bool) (s : string) : string :=
  match s with
  | EmptyString => EmptyString
  | String a s' => if p a then String a (takeWhile p s') else EmptyString
  end.

Fixpoint dropWhile (p : ascii -> bool) (s : string) : string :=
  match s with
  | EmptyString => EmptyString
  | String a s' => if p a then dropWhile p s' else s
  end.

Fixpoint allChars (p : ascii -> bool) (s : string) : bool :=
  match s with
  | EmptyString => true
  | String a s' => p a && allChars p s'
  end.

Definition hasChar (c : ascii) (s : string) : bool :=
  negb (allChars (fun a => negb (Ascii.eqb c a)) s).

(** [s] without its last character. *)
Fixpoint dropLast (s : string) : string :=
  match s with
  | EmptyString => EmptyString
  | String a s' =>
      match s' with
      | EmptyString => EmptyString
      | _ => String a (dropLast s')
      end
  end.

Definition isQuote (c : ascii) : bool :=
  Ascii.eqb c dquote || Ascii.eqb c "'".

(** What follows the first occurrence of [q] in [s], if there is one. *)
Fixpoint closing (q : ascii) (s : string) : option string :=
  match s with
  | EmptyString => None
  | String a s' => if Ascii.eqb q a then Some s' else closing q s'
  end.

(** The scanner view of the repetition in [tokenRegex]: what is left of
    [s] after the longest sequence of bare characters and closed quoted
    spans; [inq] is the quote of the span being read, if any. *)
Fixpoint skipRun (inq : option ascii) (s : string) : string :=
  match s with
  | EmptyString => EmptyString
  | String a s' =>
      match inq with
      | Some q => if Ascii.eqb q a then skipRun None s' else skipRun inq s'
      | None =>
          if bareChar a then skipRun None s'
          else if isQuote a && bool_decide (is_Some (closing a s'))
               then skipRun (Some a) s'
          else s
      end
  end.

(** A match of [tokenRegex] can start at [s]. *)
Definition startsRun (s : string) : bool :=
  match s with
  | EmptyString => false
  | String a s' =>
      bareChar a || (isQuote a && bool_decide (is_Some (closing a s')))
  end.

(** The pieces of a run of the tokenizer: a bare word, or a span between
    two quotes of the same kind. *)
Inductive piece :=
| Bare (w : string)
| Quoted (q : ascii) (body : string).

Definition renderPiece (p : piece) : string :=
  match p with
  | Bare w => w
  | Quoted q body => String q (body ++ String q EmptyString)
  end.

Definition validPiece (p : piece) : bool :=
  match p with
  | Bare w => JS.truthy w && allChars bareChar w
  | Quoted q body => isQuote q && negb (hasChar q body)
  end.

Fixpoint renderRun (r : list piece) : string :=
  match r with
  | [] => EmptyString
  | p :: r' => renderPiece p ++ renderRun r'
  end.

Definition validRun (r : list piece) : bool :=
  match r with [] => false | _ => forallb validPiece r end.

(** A query laid out as runs, each preceded by white space, and white
    space at the end. *)
Fixpoint joinRuns (l : list (string * list piece)) (trailing : string)
  : string :=
  match l with
  | [] => trailing
  | (ws, r) :: l' => ws ++ renderRun r ++ joinRuns l' trailing
  end.

(** The white space before a run is not empty, except before the first
    run when [first] is set. *)
Fixpoint validLayout (first : bool) (l : list (string * list piece)) : bool :=
  match l with
  | [] => true
  | (ws, r) :: l' =>
      allChars JS.is_space ws && (first || JS.truthy ws) && validRun r
      && validLayout false l'
  end.

(** The loop of [exec] for [Star r], by name. *)
Definition starLoop (input : string) (r : regex) (k : cont)
  : nat -> string -> captures -> result :=
  fix loop (n : nat) (s : string) (c : captures) : result :=
    match n with
    | O => k s c
    | S n' =>
        orElse
          (exec input r s c (fun s1 c1 =>
             if Nat.ltb (String.length s1) (String.length s)
             then loop n' s1 c1 else None))
          (k s c)
    end.

Definition firstChar (s : string) : option ascii :=
  match s with String a _ => Some a | EmptyString => None end.

Fixpoint lastChar (s : string) : option ascii :=
  match s with
  | EmptyString => None
  | String a s' => match s' with EmptyString => Some a | _ => lastChar s' end
  end.

Definition dropFirst (s : string) : string :=
  match s with String _ s' => s' | EmptyString => EmptyString end.

(** The first and the last character of [t] are the same quote. *)
Definition surrounded (t : string) : bool :=
  match firstChar t, lastChar t with
  | Some a, Some b => isQuote a && Ascii.eqb a b
  | _, _ => false
  end.

(** The first two stages of [tokenize] on a list of matches. *)
Definition unquoted (tokenMatches : list string) : list string :=
  List.filter (fun token => Nat.ltb 0 (String.length token))
    (map removeSurroundingQuotes tokenMatches).

(** The tokens of [searchText] before field values are stripped. *)
Definition rawTokens (searchText : string) : list string :=
  match matchAll tokenRegex searchText with
  | None => []
  | Some tokenMatches => unquoted tokenMatches
  end.

(** A token without colon that is a recognized field name followed by
    one more character: [indexOf] answers -1 for it and [slice(0, -1)]
    yields the field name. *)
Definition fieldPlusOne (token : string) : bool :=
  negb (hasChar ":" token) && JS.includes fields (dropLast token).

(** *** The duration grammar, as the design document words it *)

(** Lower case of the letters A-Z only. *)
Definition asciiLower (c : ascii) : ascii :=
  let n := JS.code c in
  if ((65 <=? n) && (n <=? 90))%N then ascii_of_N (n + 32) else c.

Fixpoint asciiLowerCase (s : string) : string :=
  match s with
  | EmptyString => EmptyString
  | String c s' => String (asciiLower c) (asciiLowerCase s')
  end.

(** Seconds per unit. *)
Definition unitSeconds : list (string * N) :=
  [ ("sec", 1%N); ("min", 60%N); ("hour", 3600%N); ("day", 86400%N);
    ("week", 604800%N); ("month", 2592000%N); ("year", 31536000%N) ].

Definition unitWords : list string := map fst unitSeconds.

Definition lookupUnit (u : string) : option N :=
  snd <$> List.find (fun e => String.eqb (fst e) u) unitSeconds.

(** [durationOf v]: the digits of [v] as a number and the seconds of its
    unit, when [v] is one or more digits optionally followed by a unit
    word in any case; a missing unit counts as seconds. *)
Definition durationOf (v : string) : option (N * N) :=
  let digits := takeWhile JS.is_digit v in
  let unit := dropWhile JS.is_digit v in
  if negb (JS.truthy digits) then None
  else if negb (JS.truthy unit) then Some (JS.decimal 0 digits, 1%N)
  else match lookupUnit (asciiLowerCase unit) with
       | Some perUnit => Some (JS.decimal 0 digits, perUnit)
       | None => None
       end.

(** A token that the [since] case discards. *)
Definition sinceRejected (token : string) : bool :=
  String.prefix "since:" token
  && bool_decide (durationOf (JS.sliceFrom token 6) = None).

Definition pushSince (a : Arrays.t) (x : term) : Arrays.t :=
  {| any := any a; quote := quote a; since := (since a ++ [x])%list;
     tag := tag a; text := text a; uri := uri a; user := user a |}.

(** The sum of the sizes [size v] of the values [v] of a map. *)
Definition sumOver {A : Type} (size : A -> nat) (m : gmap string A) : nat :=
  map_fold (fun _ v n => size v + n) 0 m.

(** The number of terms in all facets of a result. *)
Definition termCount (m : gmap string Facet) : nat :=
  sumOver (fun facet => List.length (terms facet)) m.

(** The number of values under all keys of a flat map. *)
Definition valueCount (m : gmap string (list string)) : nat :=
  sumOver (@List.length string) m.

(** The keys of a result of [generateFacetedFilter]. *)
Definition facetKeys : list string :=
  ["any"; "quote"; "since"; "tag"; "text"; "uri"; "user"].

(** A facet with one more term at the end. *)
Definition pushTerm (x : term) (facet : Facet) : Facet :=
  {| terms := (terms facet ++ [x])%list; operator := operator facet |}.

(** A facet with one more term at the front. *)
Definition seedTerm (x : term) (facet : Facet) : Facet :=
  {| terms := x :: terms facet; operator := operator facet |}.

Definition seedUser (x : term) (a : Arrays.t) : Arrays.t :=
  {| any := any a; quote := quote a; since := since a; tag := tag a;
     text := text a; uri := uri a; user := x :: user a |}.

(** The number of terms in the seven arrays. *)
Definition arrayCount (a : Arrays.t) : nat :=
  List.length (any a) + List.length (quote a) + List.length (since a)
  + List.length (tag a) + List.length (text a) + List.length (uri a)
  + List.length (user a).

(** [s] is empty or starts with white space. *)
Definition atBreak (s : string) : bool :=
  match s with EmptyString => true | String a _ => JS.is_space a end.

(** The code of [c] is below 128. *)
Definition isAscii (c : ascii) : bool := (JS.code c <? 128)%N.

(** The rest of [sinceRegex] after the digits. *)
Definition sinceTail : regex := Cat (Opt (Group 2 unitsRegex)) Eos.

(** The key and the value that [toObject] files a token under. *)
Definition flatEntry (token : string) : string * string :=
  let '(field, data) := splitTerm token in
  if negb (JS.truthy_opt field) then ("any", token)
  else (backendFilter (default "" field), data).

(** The values that the tokens [tokens] contribute to the key [key], in
    order. *)
Definition valuesFor (key : string) (tokens : list string) : list string :=
  map snd
    (List.filter (fun e => String.eqb (fst e) key) (map flatEntry tokens)).

(** The arrays with no term at all. *)
Definition noTerms : Arrays.t :=
  {| any := []; quote := []; since := []; tag := []; text := [];
     uri := []; user := [] |}.

(** Case analysis over the 256 characters. *)
Ltac each_char c :=
  destruct c as [[] [] [] [] [] [] [] []]; vm_compute; try done.

(** ** Definitions used in the further properties *)

(** The matches of [tokenRegex] in [searchText], none for [null]. *)
Definition tokenMatches (searchText : string) : list string :=
  matchesFrom searchText (S (String.length searchText)) tokenRegex searchText.

(** White space and quotes: the characters outside the bare class. *)
Definition nonBare (c : ascii) : bool := negb (bareChar c).

(** A text cut into gaps and matches: a gap, a match, a gap, a match and
    so on, and a last gap. *)
Fixpoint weave (l : list (string * string)) (last : string) : string :=
  match l with
  | [] => last
  | (gap, m) :: l' => gap ++ m ++ weave l' last
  end.

(** The keys that [toObject] can write. *)
Definition flatKeys : list string :=
  ["any"; "group"; "quote"; "since"; "tags"; "text"; "uri"; "user"].

(** The fields with a facet of strings, and all fields with a facet. *)
Definition stringFacets : list string :=
  ["quote"; "tag"; "text"; "uri"; "user"].

Definition facetFields : list string :=
  ["quote"; "since"; "tag"; "text"; "uri"; "user"].

Definition pushAny (a : Arrays.t) (x : term) : Arrays.t :=
  {| any := (any a ++ [x])%list; quote := quote a; since := since a;
     tag := tag a; text := text a; uri := uri a; user := user a |}.

(** The facet that the loop of [generateFacetedFilter] files a token
    under, with the term it appends; [None] for a token it discards. *)
Definition route (token : string) : option (string * term) :=
  let filter := JS.slice token 0 (JS.indexOf ":" token) in
  let fieldValue :=
    JS.sliceFrom token (Z.of_nat (String.length filter) + 1) in
  if JS.includes stringFacets filter then Some (filter, Str fieldValue)
  else if String.eqb filter "since" then
    match sinceSeconds token with
    | Some seconds => Some ("since", Num seconds)
    | None => None
    end
  else Some ("any", Str token).

(** The terms that the tokens [tokens] contribute to the facet [key], in
    order. *)
Definition routed (key : string) (tokens : list string) : list term :=
  omap (fun token =>
          match route token with
          | Some (k, x) => if String.eqb k key then Some x else None
          | None => None
          end) tokens.

(** The terms of the facet [key] of a result; none when there is no such
    facet. *)
Definition facetTerms (m : gmap string Facet) (key : string) : list term :=
  default [] (terms <$> m !! key).

Definition isNum (x : term) : bool :=
  match x with Num _ => true | Str _ => false end.

(** Key-wise concatenation of two flat maps. *)
Definition mergeFlat (m1 m2 : gmap string (list string))
  : gmap string (list string) :=
  union_with (fun l1 l2 => Some (l1 ++ l2)%list) m1 m2.

(** *** The tokenizer as a scan of the text *)









(** * Properties *)

(** ** Strings *)

Section StringFacts.
Implicit Types (s t pre post : string) (c a : ascii).

Lemma str_app_nil_l s : "" ++ s = s.
Proof. reflexivity. Qed.

Lemma str_app_cons a s t : String a s ++ t = String a (s ++ t).
Proof. reflexivity. Qed.

Lemma str_length_app s t :
  String.length (s ++ t) = String.length s + String.length t.
Proof.
  induction s as [|a s IH]; rewrite ?str_app_nil_l, ?str_app_cons; simpl;
    [done | by rewrite IH].
Qed.

Lemma str_app_nil_r s : s ++ "" = s.
Proof.
  induction s as [|a s IH]; rewrite ?str_app_nil_l, ?str_app_cons;
    [done | by rewrite IH].
Qed.

Lemma str_app_assoc s t u : (s ++ t) ++ u = s ++ (t ++ u).
Proof.
  induction s as [|a s IH]; rewrite ?str_app_nil_l, ?str_app_cons;
    [done | by rewrite IH].
Qed.

Lemma substring_0_0 s : substring 0 0 s = "".
Proof. by destruct s. Qed.

Lemma substring_prefix s t : substring 0 (String.length s) (s ++ t) = s.
Proof.
  induction s as [|a s IH]; rewrite ?str_app_nil_l, ?str_app_cons; simpl;
    [apply substring_0_0 | by rewrite IH].
Qed.

Lemma substring_all s n : String.length s <= n -> substring 0 n s = s.
Proof.
  revert n; induction s as [|a s IH]; intros [|n] Hn; simpl in *;
    try done; try lia.
  rewrite IH; [done | lia].
Qed.

Lemma substring_skip s t n :
  substring (String.length s) n (s ++ t) = substring 0 n t.
Proof.
  induction s as [|a s IH]; rewrite ?str_app_nil_l, ?str_app_cons; simpl; done.
Qed.

Lemma substring_end s n : substring (String.length s) n s = "".
Proof.
  induction s as [|a s IH]; simpl; [by destruct n | done].
Qed.

Lemma dropLast_cons a b s :
  dropLast (String a (String b s)) = String a (dropLast (String b s)).
Proof. reflexivity. Qed.

Lemma substring_dropLast s :
  substring 0 (String.length s - 1) s = dropLast s.
Proof.
  induction s as [|a s IH]; [done |].
  destruct s as [|b s]; [done |].
  rewrite dropLast_cons, <- IH.
  replace (String.length (String a (String b s)) - 1)
    with (S (String.length (String b s) - 1)) by (simpl; lia).
  reflexivity.
Qed.

Lemma length_dropLast s : String.length (dropLast s) = String.length s - 1.
Proof.
  induction s as [|a s IH]; [done |].
  destruct s as [|b s]; [done |].
  rewrite dropLast_cons. simpl String.length in *. lia.
Qed.

Lemma hasChar_cons c a s :
  hasChar c (String a s) = Ascii.eqb c a || hasChar c s.
Proof. unfold hasChar; simpl. by destruct (Ascii.eqb c a). Qed.

Lemma hasChar_app c s t : hasChar c (s ++ t) = hasChar c s || hasChar c t.
Proof.
  induction s as [|a s IH]; [done |].
  rewrite str_app_cons, !hasChar_cons, IH. by destruct (Ascii.eqb c a).
Qed.

Lemma indexOf_absent c s : hasChar c s = false -> JS.indexOf c s = (-1)%Z.
Proof.
  induction s as [|a s IH]; [done |].
  rewrite hasChar_cons. intros [Ha Hs]%orb_false_elim.
  simpl. rewrite Ascii.eqb_sym, Ha, (IH Hs). done.
Qed.

Lemma indexOf_first c pre post :
  hasChar c pre = false ->
  JS.indexOf c (pre ++ String c post) = Z.of_nat (String.length pre).
Proof.
  induction pre as [|a pre IH]; rewrite ?str_app_nil_l, ?str_app_cons; simpl.
  - by rewrite Ascii.eqb_refl.
  - rewrite hasChar_cons. intros [Ha Hs]%orb_false_elim.
    rewrite Ascii.eqb_sym, Ha, (IH Hs).
    destruct (String.length pre); simpl; lia.
Qed.

Lemma slice_before pre post :
  JS.slice (pre ++ post) 0 (Z.of_nat (String.length pre)) = pre.
Proof.
  unfold JS.slice, JS.clamp. rewrite str_length_app.
  destruct (Z.ltb_spec (Z.of_nat (String.length pre)) 0); [lia |].
  simpl. rewrite Nat2Z.id, Nat.min_l, Nat.sub_0_r by lia.
  apply substring_prefix.
Qed.

Lemma sliceFrom_after pre post :
  JS.sliceFrom (pre ++ post) (Z.of_nat (String.length pre)) = post.
Proof.
  unfold JS.sliceFrom, JS.clamp. rewrite str_length_app.
  destruct (Z.ltb_spec (Z.of_nat (String.length pre)) 0); [lia |].
  rewrite Nat2Z.id, Nat.min_l by lia.
  rewrite substring_skip. apply substring_all. lia.
Qed.

Lemma slice_minus_one s : JS.slice s 0 (-1) = dropLast s.
Proof.
  unfold JS.slice, JS.clamp. simpl (0 <? 0)%Z. simpl (-1 <? 0)%Z. cbv iota.
  rewrite Nat.min_0_l, Nat.sub_0_r.
  replace (Z.to_nat (Z.max (Z.of_nat (String.length s) + -1) 0))
    with (String.length s - 1) by lia.
  apply substring_dropLast.
Qed.

Lemma sliceFrom_end s n :
  (Z.of_nat (String.length s) <= n)%Z -> JS.sliceFrom s n = "".
Proof.
  intros Hn. unfold JS.sliceFrom, JS.clamp.
  destruct (Z.ltb_spec n 0); [lia |].
  rewrite Nat.min_r by lia. rewrite Nat.sub_diag. apply substring_end.
Qed.
End StringFacts.

(** ** [splitTerm] *)

Section SplitTerm.
Implicit Types (s t pre post : string) (c a : ascii).

Lemma splitTerm_colon pre post :
  hasChar ":" pre = false ->
  splitTerm (pre ++ String ":" post) =
    if JS.truthy pre && JS.includes fields pre then (Some pre, post)
    else (None, pre ++ String ":" post).
Proof.
  intros Hpre. unfold splitTerm.
  rewrite (indexOf_first _ _ _ Hpre), slice_before.
  destruct (JS.truthy pre); [| done].
  destruct (JS.includes fields pre); [| done].
  simpl negb. cbv iota. f_equal.
  change (String ":" post) with (":" ++ post).
  rewrite <- str_app_assoc.
  replace (Z.of_nat (String.length pre) + 1)%Z
    with (Z.of_nat (String.length (pre ++ ":")))
    by (rewrite str_length_app; simpl; lia).
  apply sliceFrom_after.
Qed.

Lemma splitTerm_nocolon t :
  hasChar ":" t = false ->
  splitTerm t =
    if JS.includes fields (dropLast t) then (Some (dropLast t), "")
    else (None, t).
Proof.
  intros Ht. unfold splitTerm.
  rewrite (indexOf_absent _ _ Ht), slice_minus_one.
  destruct (JS.truthy (dropLast t)) eqn:Hd.
  - simpl negb. cbv iota. destruct (JS.includes fields (dropLast t)); [| done].
    f_equal. apply sliceFrom_end. rewrite length_dropLast.
    destruct t; [done | simpl; lia].
  - destruct (dropLast t); [done | discriminate].
Qed.

Lemma includes_fields_spec f :
  JS.includes fields f = true <-> In f fields.
Proof.
  unfold JS.includes. rewrite existsb_exists. split.
  - intros (x & Hx & ->%String.eqb_eq). done.
  - intros Hf. exists f. by rewrite String.eqb_refl.
Qed.

Lemma fields_no_colon f : In f fields -> hasChar ":" f = false.
Proof. intros Hf. repeat (destruct Hf as [<- | Hf]; [done |]). done. Qed.

Lemma fields_truthy f : In f fields -> JS.truthy f = true.
Proof. intros Hf. repeat (destruct Hf as [<- | Hf]; [done |]). done. Qed.

Lemma splitTerm_field f v :
  In f fields -> splitTerm (f ++ String ":" v) = (Some f, v).
Proof.
  intros Hf. rewrite splitTerm_colon by by apply fields_no_colon.
  rewrite (fields_truthy _ Hf). apply includes_fields_spec in Hf. by rewrite Hf.
Qed.
End SplitTerm.

(** ** [removeSurroundingQuotes] *)

Section Quotes.
Implicit Types (s t mid : string) (q a : ascii).

Lemma slice_first t :
  JS.slice t 0 1 =
    match firstChar t with Some a => String a "" | None => "" end.
Proof.
  destruct t as [|a t]; [done |].
  unfold JS.slice, JS.clamp. simpl. by rewrite substring_0_0.
Qed.

Lemma substring_cons a s n m :
  substring (S n) m (String a s) = substring n m s.
Proof. reflexivity. Qed.

Lemma substring_last s :
  substring (String.length s - 1) 1 s =
    match lastChar s with Some b => String b "" | None => "" end.
Proof.
  induction s as [|a s IH]; [done |].
  destruct s as [|b s]; [done |].
  replace (String.length (String a (String b s)) - 1)
    with (S (String.length (String b s) - 1)) by (simpl; lia).
  rewrite substring_cons, IH. done.
Qed.

Lemma clamp_minus_one len : JS.clamp len (-1) = len - 1.
Proof. unfold JS.clamp. destruct (Z.ltb_spec (-1) 0); lia. Qed.

Lemma clamp_nat len n : JS.clamp len (Z.of_nat n) = Nat.min n len.
Proof. unfold JS.clamp. destruct (Z.ltb_spec (Z.of_nat n) 0); lia. Qed.

Lemma sliceFrom_last t :
  JS.sliceFrom t (-1) =
    match lastChar t with Some b => String b "" | None => "" end.
Proof.
  unfold JS.sliceFrom. rewrite clamp_minus_one.
  destruct t as [|a t]; [done |].
  replace (String.length (String a t) - (String.length (String a t) - 1))
    with 1 by (simpl; lia).
  apply substring_last.
Qed.

Lemma slice_middle a s :
  JS.slice (String a s) 1 (Z.of_nat (String.length (String a s)) - 1) =
    dropLast s.
Proof.
  unfold JS.slice.
  replace (Z.of_nat (String.length (String a s)) - 1)%Z
    with (Z.of_nat (String.length s)) by (simpl; lia).
  change 1%Z with (Z.of_nat 1). rewrite !clamp_nat.
  replace (Nat.min 1 (String.length (String a s))) with 1 by (simpl; lia).
  replace (Nat.min (String.length s) (String.length (String a s)))
    with (String.length s) by (simpl; lia).
  rewrite substring_cons. apply substring_dropLast.
Qed.

Lemma eqb_single a b : String.eqb (String a "") (String b "") = Ascii.eqb a b.
Proof. simpl. by destruct (Ascii.eqb a b). Qed.

Lemma lastChar_cons a s : lastChar (String a s) <> None.
Proof.
  revert a; induction s as [|b s IH]; intros a; [done |].
  change (lastChar (String a (String b s))) with (lastChar (String b s)).
  apply IH.
Qed.

(** [removeSurroundingQuotes] strips exactly when the first and the
    last character are the same quote. *)
Lemma removeSurroundingQuotes_spec t :
  removeSurroundingQuotes t =
    if surrounded t then dropLast (dropFirst t) else t.
Proof.
  unfold removeSurroundingQuotes, surrounded.
  rewrite slice_first, sliceFrom_last.
  destruct t as [|a t]; [done |].
  simpl firstChar. cbv iota.
  destruct (lastChar (String a t)) as [b|] eqn:Hlast.
  - rewrite !eqb_single. fold (isQuote a).
    destruct (isQuote a && Ascii.eqb a b); [| done].
    apply slice_middle.
  - by apply lastChar_cons in Hlast.
Qed.

Lemma lastChar_snoc s b : lastChar (s ++ String b "") = Some b.
Proof.
  induction s as [|a s IH]; [done |].
  rewrite str_app_cons. simpl. rewrite IH.
  destruct s; done.
Qed.

Lemma dropLast_snoc s b : dropLast (s ++ String b "") = s.
Proof.
  induction s as [|a s IH]; [done |].
  rewrite str_app_cons. destruct s as [|c s]; [done |].
  rewrite str_app_cons in *. rewrite dropLast_cons, IH. done.
Qed.

Lemma removeSurroundingQuotes_quoted q mid :
  isQuote q = true ->
  removeSurroundingQuotes (String q (mid ++ String q "")) = mid.
Proof.
  intros Hq. rewrite removeSurroundingQuotes_spec.
  unfold surrounded. simpl firstChar.
  assert (lastChar (String q (mid ++ String q "")) = Some q) as ->.
  { simpl. rewrite lastChar_snoc. by destruct mid. }
  rewrite Hq, Ascii.eqb_refl. simpl. apply dropLast_snoc.
Qed.
End Quotes.

(** ** The matcher *)

Section Engine.
Variable input : string.
Implicit Types (r : regex) (s : string) (c : captures) (k : cont).

Lemma exec_Cat r1 r2 s c k :
  exec input (Cat r1 r2) s c k =
    exec input r1 s c (fun s1 c1 => exec input r2 s1 c1 k).
Proof. reflexivity. Qed.

Lemma exec_Alt r1 r2 s c k :
  exec input (Alt r1 r2) s c k =
    orElse (exec input r1 s c k) (exec input r2 s c k).
Proof. reflexivity. Qed.

Lemma exec_Star r s c k :
  exec input (Star r) s c k = starLoop input r k (String.length s) s c.
Proof. reflexivity. Qed.

Lemma exec_Group i r s c k :
  exec input (Group i r) s c k =
    exec input r s c (fun s1 c1 => k s1 (<[i := consumed s s1]> c1)).
Proof. reflexivity. Qed.

Lemma exec_Chr p s c k :
  exec input (Chr p) s c k =
    match s with
    | String a s' => if p a then k s' c else None
    | EmptyString => None
    end.
Proof. reflexivity. Qed.

Lemma starLoop_S r k n s c :
  starLoop input r k (S n) s c =
    orElse
      (exec input r s c (fun s1 c1 =>
         if Nat.ltb (String.length s1) (String.length s)
         then starLoop input r k n s1 c1 else None))
      (k s c).
Proof. reflexivity. Qed.

Lemma orElse_None_r {A} (x : option A) : orElse x None = x.
Proof. by destruct x. Qed.

Lemma orElse_Some {A} (x y : option A) : is_Some x -> orElse x y = x.
Proof. by intros [v ->]. Qed.

Lemma ltb_tail a s :
  Nat.ltb (String.length s) (String.length (String a s)) = true.
Proof. apply Nat.ltb_lt. simpl. lia. Qed.

(** A repeated character class in front of a continuation that rejects
    every rest starting with a character of the class: only the
    longest repetition can succeed. *)
Lemma starLoop_chr_greedy p k n s c :
  String.length s <= n ->
  (forall a s' c', p a = true -> k (String a s') c' = None) ->
  starLoop input (Chr p) k n s c = k (dropWhile p s) c.
Proof.
  intros Hn Hk. revert s Hn.
  induction n as [|n IH]; intros s Hn.
  - destruct s; [done | simpl in Hn; lia].
  - rewrite starLoop_S, exec_Chr.
    destruct s as [|a s]; [done |].
    simpl dropWhile. destruct (p a) eqn:Hp; [| done].
    rewrite ltb_tail, IH by (simpl in Hn; lia).
    by rewrite (Hk _ _ _ Hp), orElse_None_r.
Qed.

(** A repeated character class in front of a continuation that accepts
    the rest after the longest repetition. *)
Lemma starLoop_chr_total p k n s c :
  String.length s <= n ->
  is_Some (k (dropWhile p s) c) ->
  starLoop input (Chr p) k n s c = k (dropWhile p s) c.
Proof.
  revert s. induction n as [|n IH]; intros s Hn Hk.
  - destruct s; [done | simpl in Hn; lia].
  - rewrite starLoop_S, exec_Chr.
    destruct s as [|a s]; [done |].
    simpl dropWhile in *. destruct (p a) eqn:Hp; [| done].
    rewrite ltb_tail, IH by (done || simpl in Hn; lia).
    by apply orElse_Some.
Qed.
End Engine.

(** ** The scanner *)

Section Scanner.
Implicit Types (s t : string) (q a : ascii).

Lemma str_length_dropWhile p s :
  String.length (dropWhile p s) <= String.length s.
Proof.
  induction s as [|a s IH]; [done |]. simpl. destruct (p a); simpl; lia.
Qed.

Lemma closing_dropWhile q s :
  closing q s =
    match dropWhile (fun a => negb (Ascii.eqb q a)) s with
    | String _ r => Some r
    | EmptyString => None
    end.
Proof.
  induction s as [|a s IH]; [done |].
  simpl. destruct (Ascii.eqb q a); simpl; done.
Qed.

Lemma closing_length q s r :
  closing q s = Some r -> String.length r < String.length s.
Proof.
  revert r; induction s as [|a s IH]; intros r; [done |].
  simpl. destruct (Ascii.eqb q a).
  - intros [= ->]. lia.
  - intros Hr%IH. lia.
Qed.

Lemma closing_found q body s :
  hasChar q body = false -> closing q (body ++ String q s) = Some s.
Proof.
  induction body as [|a body IH]; rewrite ?str_app_nil_l, ?str_app_cons; simpl.
  - by rewrite Ascii.eqb_refl.
  - rewrite hasChar_cons. intros [-> Hb]%orb_false_elim. auto.
Qed.

Lemma isQuote_not_bare a : isQuote a = true -> bareChar a = false.
Proof.
  unfold isQuote, bareChar.
  by destruct (JS.is_space a), (Ascii.eqb a dquote), (Ascii.eqb a "'").
Qed.

Lemma skipRun_closing q s r :
  closing q s = Some r -> skipRun (Some q) s = skipRun None r.
Proof.
  revert r; induction s as [|a s IH]; intros r; [done |].
  simpl. destruct (Ascii.eqb q a); [by intros [= ->] | auto].
Qed.

Lemma skipRun_dropWhile s :
  skipRun None (dropWhile bareChar s) = skipRun None s.
Proof.
  induction s as [|a s IH]; [done |].
  simpl dropWhile. destruct (bareChar a) eqn:Ha; [| done].
  simpl. by rewrite Ha.
Qed.

Lemma skipRun_suffix inq s : exists pre, s = pre ++ skipRun inq s.
Proof.
  revert inq. induction s as [|a s IH]; intros inq; [by exists "" |].
  assert (forall i, exists pre, String a s = pre ++ skipRun i s) as Hcons.
  { intros i. destruct (IH i) as [pre Hpre].
    exists (String a pre). rewrite str_app_cons. by rewrite <- Hpre. }
  simpl. destruct inq as [q|].
  - destruct (Ascii.eqb q a); apply Hcons.
  - destruct (bareChar a); [apply Hcons |].
    destruct (isQuote a && bool_decide (is_Some (closing a s)));
      [apply Hcons | by exists ""].
Qed.
End Scanner.

(** ** The regular expression of [tokenize] *)

Section TokenRegex.
Variable input : string.
Implicit Types (s : string) (c : captures) (k : cont).

Lemma exec_quotedSpan q s c k :
  exec input (quotedSpan q) s c k =
    match s with
    | String a s' =>
        if Ascii.eqb q a then
          match closing q s' with Some r => k r c | None => None end
        else None
    | EmptyString => None
    end.
Proof.
  unfold quotedSpan, chr, notChr.
  rewrite exec_Cat, exec_Chr.
  destruct s as [|a s]; [done |].
  destruct (Ascii.eqb q a); [| done].
  rewrite exec_Cat, exec_Star, starLoop_chr_greedy; [| done |].
  - rewrite exec_Chr, closing_dropWhile.
    destruct (dropWhile _ s) as [|b r] eqn:Hd; [done |].
    assert (Ascii.eqb q b = true) as ->; [| done].
    clear -Hd. induction s as [|a' s IH]; [done |].
    simpl in Hd. destruct (Ascii.eqb q a') eqn:Ha; simpl in Hd; [| auto].
    by injection Hd as -> _.
  - intros a' s' c' Ha'. rewrite exec_Chr.
    by destruct (Ascii.eqb q a').
Qed.

(** One piece in front of a continuation that accepts every shorter
    rest. *)
Lemma exec_tokenPiece s c k :
  (forall s' c', String.length s' < String.length s -> is_Some (k s' c')) ->
  exec input tokenPiece s c k =
    match s with
    | EmptyString => None
    | String a s' =>
        if bareChar a then k (dropWhile bareChar s') c
        else if isQuote a then
          match closing a s' with Some r => k r c | None => None end
        else None
    end.
Proof.
  intros Hk. unfold tokenPiece, Plus.
  rewrite exec_Alt, exec_Cat, exec_Chr, !exec_Alt, !exec_quotedSpan.
  destruct s as [|a s]; [done |].
  destruct (bareChar a) eqn:Hbare.
  - rewrite exec_Star, starLoop_chr_total; [| done |].
    + apply orElse_Some, Hk.
      pose proof (str_length_dropWhile bareChar s). simpl; lia.
    + apply Hk. pose proof (str_length_dropWhile bareChar s). simpl; lia.
  - unfold isQuote.
    rewrite (Ascii.eqb_sym a dquote), (Ascii.eqb_sym a "'").
    destruct (Ascii.eqb_spec dquote a) as [<- | Hd].
    + simpl. by rewrite orElse_None_r.
    + destruct (Ascii.eqb_spec "'" a) as [<- | Hs]; done.
Qed.
End TokenRegex.

Section TokenMatch.
Variable input : string.
Implicit Types (s : string) (c : captures) (k : cont).

Lemma skipRun_step a s :
  skipRun None (String a s) =
    if bareChar a then skipRun None (dropWhile bareChar s)
    else if isQuote a then
      match closing a s with
      | Some r => skipRun None r
      | None => String a s
      end
    else String a s.
Proof.
  simpl. rewrite skipRun_dropWhile.
  destruct (bareChar a); [done |].
  destruct (isQuote a); [| done]. simpl.
  destruct (closing a s) as [r|] eqn:Hr.
  - rewrite bool_decide_true by eauto. by apply skipRun_closing.
  - rewrite bool_decide_false; [done |]. by intros [? ?].
Qed.

Lemma starLoop_tokenPiece n s c :
  String.length s <= n ->
  starLoop input tokenPiece accept n s c = Some (skipRun None s, c).
Proof.
  revert s c. induction n as [|n IH]; intros s c Hn.
  - destruct s; [done | simpl in Hn; lia].
  - rewrite starLoop_S.
    destruct s as [|a s]; [done |].
    rewrite exec_tokenPiece.
    2:{ intros s' c' Hs'. apply Nat.ltb_lt in Hs' as Hlt. rewrite Hlt.
        rewrite IH by (simpl in *; lia). eauto. }
    rewrite skipRun_step.
    destruct (bareChar a).
    { pose proof (str_length_dropWhile bareChar s) as Hd.
      assert (Nat.ltb (String.length (dropWhile bareChar s))
                (String.length (String a s)) = true) as ->
        by (apply Nat.ltb_lt; simpl; lia).
      rewrite IH by (simpl in *; lia). done. }
    destruct (isQuote a); [| done].
    destruct (closing a s) as [r|] eqn:Hr; [| done].
    apply closing_length in Hr.
    assert (Nat.ltb (String.length r) (String.length (String a s)) = true) as ->
      by (apply Nat.ltb_lt; simpl; lia).
    rewrite IH by (simpl in *; lia). done.
Qed.

Lemma startsRun_step a s :
  startsRun (String a s) =
    bareChar a || (isQuote a && bool_decide (is_Some (closing a s))).
Proof. reflexivity. Qed.

(** The match of [tokenRegex] at [s]: it exists when a bare character
    or a closed quoted span starts [s], and it ends where [skipRun]
    stops. *)
Lemma exec_tokenRegex s c :
  exec input tokenRegex s c accept =
    if startsRun s then Some (skipRun None s, c) else None.
Proof.
  unfold tokenRegex, Plus. rewrite exec_Cat.
  rewrite exec_tokenPiece.
  2:{ intros s' c' _. rewrite exec_Star, starLoop_tokenPiece; eauto. }
  destruct s as [|a s]; [done |].
  rewrite startsRun_step, skipRun_step.
  destruct (bareChar a).
  { by rewrite exec_Star, starLoop_tokenPiece. }
  destruct (isQuote a); [| done]. rewrite orb_false_l, andb_true_l.
  destruct (closing a s) as [r|] eqn:Hr.
  - rewrite bool_decide_true by eauto.
    by rewrite exec_Star, starLoop_tokenPiece.
  - rewrite bool_decide_false; [done |]. by intros [? ?].
Qed.

Lemma search_unfold r s :
  search input r s =
    match exec input r s ∅ accept with
    | Some (rest, c) => Some (s, rest, c)
    | None =>
        match s with
        | EmptyString => None
        | String _ s' => search input r s'
        end
    end.
Proof. by destruct s. Qed.

Lemma search_step s :
  search input tokenRegex s =
    if startsRun s then Some (s, skipRun None s, ∅)
    else match s with
         | EmptyString => None
         | String _ s' => search input tokenRegex s'
         end.
Proof.
  rewrite search_unfold, exec_tokenRegex. by destruct (startsRun s).
Qed.
End TokenMatch.

(** ** Queries laid out as runs *)

Section Layout.
Variable input : string.
Implicit Types (s ws rest : string) (r : list piece).

Lemma space_not_bare a : JS.is_space a = true -> bareChar a = false.
Proof. unfold bareChar. by intros ->. Qed.

Lemma space_not_quote a : JS.is_space a = true -> isQuote a = false.
Proof.
  unfold isQuote. intros Ha.
  destruct (Ascii.eqb_spec a dquote) as [-> |]; [done |].
  destruct (Ascii.eqb_spec a "'") as [-> |]; done.
Qed.

Lemma startsRun_break s : atBreak s = true -> startsRun s = false.
Proof.
  destruct s as [|a s]; [done |]. simpl atBreak. intros Ha.
  rewrite startsRun_step, (space_not_bare _ Ha), (space_not_quote _ Ha). done.
Qed.

Lemma skipRun_break s : atBreak s = true -> skipRun None s = s.
Proof.
  destruct s as [|a s]; [done |]. simpl atBreak. intros Ha.
  rewrite skipRun_step, (space_not_bare _ Ha), (space_not_quote _ Ha). done.
Qed.

Lemma search_spaces ws s :
  allChars JS.is_space ws = true ->
  search input tokenRegex (ws ++ s) = search input tokenRegex s.
Proof.
  induction ws as [|a ws IH]; [done |].
  simpl allChars. intros [Ha Hws]%andb_prop.
  rewrite str_app_cons, search_step, startsRun_break by done. auto.
Qed.

Lemma search_empty : search input tokenRegex "" = None.
Proof. by rewrite search_step. Qed.

Lemma skipRun_bare w s :
  allChars bareChar w = true -> skipRun None (w ++ s) = skipRun None s.
Proof.
  induction w as [|a w IH]; [done |].
  simpl allChars. intros [Ha Hw]%andb_prop.
  rewrite str_app_cons. simpl. rewrite Ha. auto.
Qed.

Lemma skipRun_piece p s :
  validPiece p = true -> skipRun None (renderPiece p ++ s) = skipRun None s.
Proof.
  destruct p as [w | q body]; simpl validPiece.
  - intros [_ Hw]%andb_prop. by apply skipRun_bare.
  - intros [Hq Hbody%negb_true_iff]%andb_prop.
    simpl renderPiece.
    rewrite str_app_cons, str_app_assoc, str_app_cons, str_app_nil_l.
    rewrite skipRun_step, (isQuote_not_bare _ Hq), Hq.
    by rewrite (closing_found _ _ _ Hbody).
Qed.

Lemma skipRun_run r s :
  forallb validPiece r = true ->
  skipRun None (renderRun r ++ s) = skipRun None s.
Proof.
  induction r as [|p r IH]; [done |].
  simpl forallb. intros [Hp Hr]%andb_prop.
  simpl renderRun. rewrite str_app_assoc, skipRun_piece by done. auto.
Qed.

Lemma startsRun_piece p s :
  validPiece p = true -> startsRun (renderPiece p ++ s) = true.
Proof.
  destruct p as [w | q body]; simpl validPiece.
  - intros [Hne Hw]%andb_prop. destruct w as [|a w]; [done |].
    simpl in Hw. apply andb_prop in Hw as [Ha _]. simpl renderPiece.
    by rewrite str_app_cons, startsRun_step, Ha.
  - intros [Hq Hbody%negb_true_iff]%andb_prop.
    simpl renderPiece.
    rewrite str_app_cons, str_app_assoc, str_app_cons, str_app_nil_l.
    rewrite startsRun_step, Hq, (closing_found _ _ _ Hbody).
    rewrite bool_decide_true by eauto. by rewrite orb_true_r.
Qed.

Lemma startsRun_run r s :
  validRun r = true -> startsRun (renderRun r ++ s) = true.
Proof.
  destruct r as [|p r]; [done |]. simpl.
  intros [Hp _]%andb_prop. rewrite str_app_assoc. by apply startsRun_piece.
Qed.

Lemma renderPiece_truthy p :
  validPiece p = true -> JS.truthy (renderPiece p) = true.
Proof.
  destruct p as [w | q body]; simpl; [| done]. by intros [? _]%andb_prop.
Qed.

Lemma truthy_app s t : JS.truthy s = true -> JS.truthy (s ++ t) = true.
Proof. by destruct s. Qed.

Lemma renderRun_truthy r :
  validRun r = true -> JS.truthy (renderRun r) = true.
Proof.
  destruct r as [|p r]; [done |]. simpl.
  intros [Hp _]%andb_prop. by apply truthy_app, renderPiece_truthy.
Qed.

Lemma consumed_app m rest : consumed (m ++ rest) rest = m.
Proof.
  unfold consumed. rewrite str_length_app.
  replace (String.length m + String.length rest - String.length rest)
    with (String.length m) by lia.
  apply substring_prefix.
Qed.

Lemma validRun_forallb r : validRun r = true -> forallb validPiece r = true.
Proof. by destruct r. Qed.

(** A run followed by a break is found whole. *)
Lemma search_run ws r rest :
  allChars JS.is_space ws = true ->
  validRun r = true ->
  atBreak rest = true ->
  search input tokenRegex (ws ++ renderRun r ++ rest) =
    Some (renderRun r ++ rest, rest, ∅).
Proof.
  intros Hws Hr Hrest.
  rewrite search_spaces, search_step, startsRun_run by done.
  rewrite skipRun_run by by apply validRun_forallb.
  by rewrite skipRun_break.
Qed.

Lemma search_blank ws :
  allChars JS.is_space ws = true -> search input tokenRegex ws = None.
Proof.
  intros Hws. rewrite <- (str_app_nil_r ws), search_spaces by done.
  apply search_empty.
Qed.

Lemma matchesFrom_S fuel (re : regex) s :
  matchesFrom input (S fuel) re s =
    match search input re s with
    | None => []
    | Some (at_, rest, _) =>
        let m := consumed at_ rest in
        m :: match m, rest with
             | EmptyString, EmptyString => []
             | EmptyString, String _ rest' => matchesFrom input fuel re rest'
             | _, _ => matchesFrom input fuel re rest
             end
    end.
Proof. reflexivity. Qed.

Lemma atBreak_joinRuns l trailing :
  validLayout false l = true ->
  allChars JS.is_space trailing = true ->
  atBreak (joinRuns l trailing) = true.
Proof.
  destruct l as [|[ws r] l]; simpl.
  - destruct trailing; [done |]. simpl. by intros _ [? _]%andb_prop.
  - intros [[[Hws Hne]%andb_prop Hr]%andb_prop _]%andb_prop _.
    destruct ws as [|a ws]; [done |].
    rewrite str_app_cons. simpl in *. by apply andb_prop in Hws as [? _].
Qed.

(** The matches of a laid-out query are its runs. *)
Lemma matchesFrom_layout fuel first l trailing :
  validLayout first l = true ->
  allChars JS.is_space trailing = true ->
  String.length (joinRuns l trailing) < fuel ->
  matchesFrom input fuel tokenRegex (joinRuns l trailing) =
    map (fun e => renderRun e.2) l.
Proof.
  revert fuel first.
  induction l as [|[ws r] l IH]; intros fuel first Hl Ht Hfuel.
  - destruct fuel as [|fuel]; [lia |].
    simpl joinRuns. by rewrite matchesFrom_S, search_blank.
  - destruct fuel as [|fuel]; [lia |].
    simpl in Hl.
    apply andb_prop in Hl as [[[Hws Hne]%andb_prop Hr]%andb_prop Hl].
    simpl joinRuns in *.
    rewrite matchesFrom_S, search_run by (done || by apply atBreak_joinRuns).
    simpl. rewrite consumed_app.
    pose proof (renderRun_truthy _ Hr) as Hm.
    rewrite !str_length_app in Hfuel.
    destruct (renderRun r) as [|a m] eqn:Hrun; [done |].
    f_equal. apply (IH fuel false); [done | done |].
    simpl in Hfuel. lia.
Qed.
End Layout.

Lemma tokenize_matches s :
  tokenize s =
    map stripFieldValue
      (unquoted (matchesFrom s (S (String.length s)) tokenRegex s)).
Proof.
  unfold tokenize, matchAll.
  by destruct (matchesFrom s (S (String.length s)) tokenRegex s).
Qed.

Lemma tokenize_layout l trailing :
  validLayout true l = true ->
  allChars JS.is_space trailing = true ->
  tokenize (joinRuns l trailing) =
    map stripFieldValue (unquoted (map (fun e => renderRun e.2) l)).
Proof.
  intros Hl Ht. rewrite tokenize_matches.
  by rewrite (matchesFrom_layout _ _ true) by (done || lia).
Qed.

(** ** The regular expression of the [since] case *)

Section SinceRegex.
Variable input : string.
Implicit Types (s : string) (c : captures) (k : cont).

Lemma exec_Eps s c k : exec input Eps s c k = k s c.
Proof. reflexivity. Qed.

Lemma exec_Eos s c k :
  exec input Eos s c k = match s with EmptyString => k s c | _ => None end.
Proof. reflexivity. Qed.

Lemma exec_Bos s c k :
  exec input Bos s c k =
    if Nat.eqb (String.length s) (String.length input) then k s c else None.
Proof. reflexivity. Qed.

Lemma exec_lit_cons a w s c k :
  exec input (lit (String a w)) s c k =
    exec input (chr a) s c (fun s1 c1 => exec input (lit w) s1 c1 k).
Proof. reflexivity. Qed.

(** A literal word in front of a continuation that wants the end of
    the input. *)
Lemma exec_lit_end w s c k :
  (forall a s' c', k (String a s') c' = None) ->
  exec input (lit w) s c k = if String.eqb w s then k "" c else None.
Proof.
  intros Hk. revert s. induction w as [|a w IH]; intros s.
  - simpl lit. rewrite exec_Eps. destruct s; [done | apply Hk].
  - rewrite exec_lit_cons. unfold chr. rewrite exec_Chr.
    destruct s as [|b s]; [done |].
    simpl String.eqb. destruct (Ascii.eqb a b); [apply IH | done].
Qed.

Lemma exec_units s c k :
  (forall a s' c', k (String a s') c' = None) ->
  exec input unitsRegex s c k =
    if JS.includes unitWords s then k "" c else None.
Proof.
  intros Hk. unfold unitsRegex.
  rewrite !exec_Alt, !exec_lit_end by done.
  unfold JS.includes, unitWords. simpl existsb.
  rewrite !(String.eqb_sym s).
  destruct (k "" c);
    repeat match goal with
           | |- context [String.eqb ?w s] => destruct (String.eqb w s)
           end; done.
Qed.
End SinceRegex.

Section SinceMatch.
Variable input : string.
Implicit Types (s : string) (c : captures) (k : cont).

Lemma consumed_all s : consumed s "" = s.
Proof. unfold consumed. simpl. rewrite Nat.sub_0_r. by apply substring_all. Qed.

Lemma takeWhile_dropWhile p s : takeWhile p s ++ dropWhile p s = s.
Proof.
  induction s as [|a s IH]; [done |].
  simpl. destruct (p a); [| done]. by rewrite str_app_cons, IH.
Qed.

Lemma consumed_dropWhile p a s :
  consumed (String a s) (dropWhile p s) = String a (takeWhile p s).
Proof.
  rewrite <- (takeWhile_dropWhile p s) at 1. rewrite <- str_app_cons.
  apply consumed_app.
Qed.

Lemma exec_sinceTail s c :
  exec input sinceTail s c accept =
    if JS.includes unitWords s then Some ("", <[2 := s]> c)
    else if JS.truthy s then None
    else Some ("", c).
Proof.
  unfold sinceTail, Opt.
  rewrite exec_Cat, exec_Alt, exec_Group, exec_units by done.
  rewrite exec_Eos, consumed_all, exec_Eps, exec_Eos.
  destruct (JS.includes unitWords s); [done |].
  by destruct s.
Qed.

Lemma units_not_digit a s :
  JS.is_digit a = true -> JS.includes unitWords (String a s) = false.
Proof.
  intros Ha. unfold JS.includes, unitWords. simpl.
  repeat match goal with
         | |- context [Ascii.eqb a ?x] =>
             destruct (Ascii.eqb_spec a x) as [-> |]; [discriminate Ha |]
         end.
  done.
Qed.

Lemma exec_sinceBody s :
  exec input (Cat (Group 1 (Plus (Chr JS.is_digit))) sinceTail) s ∅ accept =
    let digits := takeWhile JS.is_digit s in
    let unit := dropWhile JS.is_digit s in
    if JS.truthy digits then
      if JS.includes unitWords unit
      then Some ("", <[2 := unit]> (<[1 := digits]> ∅))
      else if JS.truthy unit then None
      else Some ("", <[1 := digits]> ∅)
    else None.
Proof.
  unfold Plus. rewrite exec_Cat, exec_Group, exec_Cat, exec_Chr.
  destruct s as [|a s]; [done |].
  simpl takeWhile. simpl dropWhile.
  destruct (JS.is_digit a) eqn:Ha; [| done].
  rewrite exec_Star, starLoop_chr_greedy; [| done |].
  - by rewrite exec_sinceTail, !consumed_dropWhile.
  - intros b s' c' Hb. rewrite exec_sinceTail.
    by rewrite (units_not_digit _ _ Hb).
Qed.

Lemma search_Bos r s :
  String.length s < String.length input ->
  search input (Cat Bos r) s = None.
Proof.
  induction s as [|a s IH]; intros Hs;
    rewrite search_unfold, exec_Cat, exec_Bos.
  - assert (Nat.eqb (String.length "") (String.length input) = false)
      as ->; [| done].
    apply Nat.eqb_neq. lia.
  - assert (Nat.eqb (String.length (String a s)) (String.length input)
            = false) as ->.
    { apply Nat.eqb_neq. lia. }
    apply IH. simpl in Hs. lia.
Qed.
End SinceMatch.

(** What [time.match(sinceRegex)] yields. *)
Lemma matchOne_since time :
  matchOne sinceRegex time =
    let digits := takeWhile JS.is_digit time in
    let unit := dropWhile JS.is_digit time in
    if JS.truthy digits then
      if JS.includes unitWords unit
      then Some (time, <[2 := unit]> (<[1 := digits]> ∅))
      else if JS.truthy unit then None
      else Some (time, <[1 := digits]> ∅)
    else None.
Proof.
  unfold matchOne, sinceRegex. fold sinceTail.
  rewrite search_unfold, exec_Cat, exec_Bos, Nat.eqb_refl, exec_sinceBody.
  cbv zeta.
  assert (match time with
          | "" => None
          | String _ s' =>
              search time
                (Cat Bos (Cat (Group 1 (Plus (Chr JS.is_digit))) sinceTail))
                s'
          end = None) as ->.
  { destruct time as [|a s]; [done |]. apply search_Bos. simpl. lia. }
  destruct (JS.truthy (takeWhile JS.is_digit time)); [| done].
  destruct (JS.includes unitWords (dropWhile JS.is_digit time)).
  { by rewrite consumed_all. }
  destruct (JS.truthy (dropWhile JS.is_digit time)); [done |].
  by rewrite consumed_all.
Qed.

(** ** Lower case *)

Section LowerCase.
Implicit Types (s u v w : string) (c x : ascii).

Lemma lower_digit c : JS.is_digit (JS.lower c) = JS.is_digit c.
Proof. each_char c. Qed.

Lemma lower_digit_id c : JS.is_digit c = true -> JS.lower c = c.
Proof. each_char c. Qed.

Lemma lower_cases c :
  JS.lower c = asciiLower c \/
  (isAscii (JS.lower c) = false /\ isAscii (asciiLower c) = false).
Proof. each_char c; auto. Qed.

Lemma takeWhile_lower v :
  takeWhile JS.is_digit (JS.toLowerCase v) = takeWhile JS.is_digit v.
Proof.
  induction v as [|a v IH]; [done |].
  simpl. rewrite lower_digit. destruct (JS.is_digit a) eqn:Ha; [| done].
  by rewrite IH, lower_digit_id.
Qed.

Lemma dropWhile_lower v :
  dropWhile JS.is_digit (JS.toLowerCase v) =
    JS.toLowerCase (dropWhile JS.is_digit v).
Proof.
  induction v as [|a v IH]; [done |].
  simpl. rewrite lower_digit. by destruct (JS.is_digit a).
Qed.

Lemma truthy_lower v : JS.truthy (JS.toLowerCase v) = JS.truthy v.
Proof. by destruct v. Qed.

Lemma eqb_lower_char c x :
  isAscii x = true -> Ascii.eqb (JS.lower c) x = Ascii.eqb (asciiLower c) x.
Proof.
  intros Hx. destruct (lower_cases c) as [-> | [H1 H2]]; [done |].
  destruct (Ascii.eqb_spec (JS.lower c) x) as [<- | _]; [congruence |].
  destruct (Ascii.eqb_spec (asciiLower c) x) as [<- | _]; [congruence | done].
Qed.

(** Against a word of ASCII characters the two lower-casings agree. *)
Lemma eqb_lower u w :
  allChars isAscii w = true ->
  String.eqb (JS.toLowerCase u) w = String.eqb (asciiLowerCase u) w.
Proof.
  revert w. induction u as [|a u IH]; intros w Hw; [done |].
  destruct w as [|x w]; [done |].
  simpl in Hw. apply andb_prop in Hw as [Hx Hw].
  simpl. rewrite (eqb_lower_char _ _ Hx), (IH _ Hw). done.
Qed.

Lemma includes_units_lower u :
  JS.includes unitWords (JS.toLowerCase u) =
    JS.includes unitWords (asciiLowerCase u).
Proof.
  unfold JS.includes, unitWords. simpl existsb.
  by rewrite !eqb_lower.
Qed.

Lemma includes_spec l w : JS.includes l w = true <-> In w l.
Proof.
  unfold JS.includes. rewrite existsb_exists. split.
  - intros (x & Hx & ->%String.eqb_eq). done.
  - intros Hw. exists w. by rewrite String.eqb_refl.
Qed.

Lemma lookupUnit_includes w :
  lookupUnit w =
    if JS.includes unitWords w then secondsPerUnit !! w else None.
Proof.
  destruct (JS.includes unitWords w) eqn:Hw.
  - apply includes_spec in Hw.
    repeat (destruct Hw as [<- | Hw]; [by vm_compute |]). done.
  - unfold lookupUnit.
    destruct (List.find _ unitSeconds) as [e|] eqn:He; [| done].
    apply find_some in He as [He Heq%String.eqb_eq].
    assert (JS.includes unitWords w = true) as Hin; [| congruence].
    apply includes_spec. rewrite <- Heq. unfold unitWords. by apply in_map.
Qed.

Lemma includes_units_truthy w :
  JS.includes unitWords w = true -> JS.truthy w = true.
Proof. by destruct w. Qed.

Lemma asciiLower_units u :
  JS.includes unitWords (JS.toLowerCase u) = true ->
  JS.toLowerCase u = asciiLowerCase u.
Proof.
  intros H%includes_spec.
  assert (forall w, allChars isAscii w = true -> w = JS.toLowerCase u ->
                    asciiLowerCase u = w) as Hw.
  { intros w Hw Heq. apply String.eqb_eq. rewrite <- eqb_lower by done.
    by apply String.eqb_eq. }
  symmetry. apply Hw; [| done].
  repeat (destruct H as [<- | H]; [done |]). done.
Qed.
End LowerCase.

Lemma allChars_takeWhile p s : allChars p (takeWhile p s) = true.
Proof.
  induction s as [|a s IH]; [done |]. simpl.
  destruct (p a) eqn:Ha; [| done]. simpl. by rewrite Ha.
Qed.

Lemma forallb_allChars p s :
  forallb p (list_ascii_of_string s) = allChars p s.
Proof. induction s as [|a s IH]; [done |]. simpl. by rewrite IH. Qed.

Lemma parseFloat_digits v :
  JS.truthy (takeWhile JS.is_digit v) = true ->
  JS.parseFloat (takeWhile JS.is_digit v) =
    JS.int (JS.decimal 0 (takeWhile JS.is_digit v)).
Proof.
  intros Hv. unfold JS.parseFloat.
  by rewrite Hv, forallb_allChars, allChars_takeWhile.
Qed.

(** The number that the [since] case computes, against the grammar of
    the design document. *)
Lemma sinceSeconds_duration v :
  sinceSeconds ("since:" ++ v) =
    (fun d => JS.mul (JS.int d.1) (JS.Int d.2)) <$> durationOf v.
Proof.
  unfold sinceSeconds, durationOf.
  change 6%Z with (Z.of_nat (String.length "since:")).
  rewrite sliceFrom_after, matchOne_since. cbv zeta.
  rewrite takeWhile_lower, dropWhile_lower, truthy_lower.
  destruct (JS.truthy (takeWhile JS.is_digit v)) eqn:Hd; [| done].
  simpl negb. cbv iota.
  set (unit := dropWhile JS.is_digit v).
  destruct (JS.includes unitWords (JS.toLowerCase unit)) eqn:Hu.
  - cbv beta iota zeta.
    rewrite lookup_insert_ne, lookup_insert_eq by done.
    rewrite lookup_insert_eq. simpl JS.truthy_opt.
    rewrite (includes_units_truthy _ Hu). simpl default.
    rewrite parseFloat_digits by done.
    assert (JS.truthy unit = true) as ->.
    { rewrite <- truthy_lower. by apply includes_units_truthy. }
    simpl negb. cbv iota.
    rewrite <- (asciiLower_units _ Hu), lookupUnit_includes, Hu.
    destruct (secondsPerUnit !! JS.toLowerCase unit) as [m|] eqn:Hm; [done |].
    exfalso. clear -Hu Hm. revert Hu Hm.
    unfold JS.includes, unitWords. simpl existsb. intros Hu.
    repeat (apply orb_prop in Hu as [Hu | Hu];
            [apply String.eqb_eq in Hu as ->; by vm_compute |]).
    done.
  - destruct (JS.truthy unit) eqn:Ht.
    + simpl. rewrite lookupUnit_includes, <- includes_units_lower, Hu. done.
    + cbv beta iota zeta.
      rewrite lookup_insert_eq, lookup_insert_ne, lookup_empty by done.
      simpl. rewrite parseFloat_digits by done. done.
Qed.

(** ** The tokens of [tokenize] *)

Section Tokens.
Implicit Types (s t : string) (c : ascii).

Lemma hasChar_dropLast c s :
  hasChar c s = false -> hasChar c (dropLast s) = false.
Proof.
  induction s as [|a s IH]; [done |].
  destruct s as [|b s]; [done |].
  rewrite dropLast_cons, !(hasChar_cons c a).
  intros [-> Hs]%orb_false_elim. auto.
Qed.

Lemma hasChar_dropFirst c s :
  hasChar c s = false -> hasChar c (dropFirst s) = false.
Proof.
  destruct s as [|a s]; [done |]. rewrite hasChar_cons.
  by intros [_ Hs]%orb_false_elim.
Qed.

Lemma hasChar_removeSurroundingQuotes c s :
  hasChar c s = false -> hasChar c (removeSurroundingQuotes s) = false.
Proof.
  intros Hs. rewrite removeSurroundingQuotes_spec.
  destruct (surrounded s); [| done].
  by apply hasChar_dropLast, hasChar_dropFirst.
Qed.

Lemma search_sound input s at_ rest caps :
  search input tokenRegex s = Some (at_, rest, caps) ->
  exists pre m, s = pre ++ at_ /\ at_ = m ++ rest /\ rest = skipRun None at_.
Proof.
  induction s as [|a s IH]; rewrite search_step.
  - done.
  - destruct (startsRun (String a s)).
    + intros [= <- <- <-]. exists "".
      destruct (skipRun_suffix None (String a s)) as [m Hm]. by exists m.
    + intros (pre & m & -> & Hm)%IH. exists (String a pre), m.
      by rewrite str_app_cons.
Qed.

Lemma matchesFrom_hasChar input c fuel s :
  hasChar c s = false ->
  Forall (fun m => hasChar c m = false) (matchesFrom input fuel tokenRegex s).
Proof.
  revert s. induction fuel as [|fuel IH]; intros s Hs; [constructor |].
  rewrite matchesFrom_S.
  destruct (search input tokenRegex s) as [[[at_ rest] caps]|] eqn:Hsearch;
    [| constructor].
  apply search_sound in Hsearch as (pre & m & -> & -> & Hrest).
  rewrite !hasChar_app in Hs.
  apply orb_false_elim in Hs as [_ [Hm Hr]%orb_false_elim].
  cbv zeta. rewrite consumed_app. constructor; [done |].
  destruct m as [|b m].
  - destruct rest as [|b rest]; [constructor |].
    apply IH. rewrite hasChar_cons in Hr.
    by apply orb_false_elim in Hr as [_ ?].
  - by apply IH.
Qed.

Lemma rawTokens_hasChar c s :
  hasChar c s = false -> Forall (fun t => hasChar c t = false) (rawTokens s).
Proof.
  intros Hs. unfold rawTokens, matchAll.
  pose proof (matchesFrom_hasChar s c (S (String.length s)) s Hs) as Hm.
  destruct (matchesFrom _ _ _ _) as [|m l] eqn:Heq; [constructor |].
  unfold unquoted. apply List.Forall_forall.
  intros t [(x & <- & Hx)%in_map_iff _]%filter_In.
  apply hasChar_removeSurroundingQuotes.
  by apply (proj1 (List.Forall_forall _ _) Hm).
Qed.

Lemma tokenize_rawTokens s : tokenize s = map stripFieldValue (rawTokens s).
Proof.
  unfold tokenize, rawTokens. by destruct (matchAll tokenRegex s).
Qed.

(** On a token without colon that is not a field name plus one
    character, [splitTerm] finds no field. *)
Lemma splitTerm_bare t :
  hasChar ":" t = false -> fieldPlusOne t = false -> splitTerm t = (None, t).
Proof.
  intros Ht. unfold fieldPlusOne. rewrite Ht. simpl. intros Hf.
  by rewrite splitTerm_nocolon, Hf.
Qed.

Lemma stripFieldValue_bare t :
  hasChar ":" t = false -> fieldPlusOne t = false -> stripFieldValue t = t.
Proof.
  intros Ht Hf. unfold stripFieldValue. by rewrite splitTerm_bare.
Qed.

(** What [splitTerm] returns as a field is a recognized field name,
    and the token is then not the whole data. *)
Lemma splitTerm_Some t f data :
  splitTerm t = (Some f, data) -> In f fields.
Proof.
  unfold splitTerm.
  destruct (JS.truthy _); simpl; [| done].
  destruct (JS.includes fields _) eqn:Hf; [| done].
  intros [= <- _]. by apply includes_fields_spec.
Qed.

Lemma splitTerm_None t data : splitTerm t = (None, data) -> data = t.
Proof.
  unfold splitTerm.
  destruct (JS.truthy _); simpl; [| by intros [= <-]].
  destruct (JS.includes fields _); [done | by intros [= <-]].
Qed.

Lemma stripFieldValue_cases t :
  (exists f data, splitTerm t = (Some f, data) /\ In f fields /\
     stripFieldValue t = f ++ ":" ++ removeSurroundingQuotes data) \/
  (splitTerm t = (None, t) /\ stripFieldValue t = t).
Proof.
  unfold stripFieldValue.
  destruct (splitTerm t) as [[f|] data] eqn:Hsplit.
  - left. exists f, data. pose proof (splitTerm_Some _ _ _ Hsplit) as Hf.
    simpl. by rewrite (fields_truthy _ Hf).
  - right. by rewrite (splitTerm_None _ _ Hsplit).
Qed.

(** No token that [tokenize] returns is a colon-less field name plus
    one character: [stripFieldValue] has rewritten those. *)
Lemma stripFieldValue_not_fieldPlusOne t :
  fieldPlusOne (stripFieldValue t) = false.
Proof.
  destruct (stripFieldValue_cases t) as [(f & data & _ & _ & ->) | [Hsplit ->]].
  - unfold fieldPlusOne.
    change (f ++ ":" ++ removeSurroundingQuotes data)
      with (f ++ String ":" (removeSurroundingQuotes data)).
    by rewrite hasChar_app, hasChar_cons, orb_true_r.
  - unfold fieldPlusOne. destruct (hasChar ":" t) eqn:Ht; [done |].
    simpl. rewrite splitTerm_nocolon in Hsplit by done.
    by destruct (JS.includes fields (dropLast t)).
Qed.

Lemma stripFieldValue_truthy t :
  JS.truthy t = true -> JS.truthy (stripFieldValue t) = true.
Proof.
  intros Ht.
  destruct (stripFieldValue_cases t) as [(f & data & _ & Hf & ->) | [_ ->]];
    [| done].
  by apply truthy_app, fields_truthy.
Qed.

Lemma rawTokens_truthy s : Forall (fun t => JS.truthy t = true) (rawTokens s).
Proof.
  unfold rawTokens. destruct (matchAll tokenRegex s); [| constructor].
  unfold unquoted. apply List.Forall_forall. intros t [_ Ht]%filter_In.
  apply Nat.ltb_lt in Ht. destruct t; [simpl in Ht; lia | done].
Qed.

Lemma tokenize_truthy s : Forall (fun t => JS.truthy t = true) (tokenize s).
Proof.
  rewrite tokenize_rawTokens. apply List.Forall_forall.
  intros t (x & <- & Hx)%in_map_iff. apply stripFieldValue_truthy.
  by apply (proj1 (List.Forall_forall _ _) (rawTokens_truthy s)).
Qed.
End Tokens.

(** ** Sums over maps *)

Section Count.
Context {A : Type} (g : A -> nat).
Implicit Types (m : gmap string A).

Lemma sumOver_empty : sumOver g (∅ : gmap string A) = 0.
Proof. apply map_fold_empty. Qed.

Lemma sumOver_insert_fresh m k v :
  m !! k = None -> sumOver g (<[k := v]> m) = g v + sumOver g m.
Proof.
  intros Hk. unfold sumOver. rewrite map_fold_insert_L; [done | | done].
  intros. lia.
Qed.

Lemma sumOver_delete m k v :
  m !! k = Some v -> sumOver g m = g v + sumOver g (delete k m).
Proof.
  intros Hk. unfold sumOver.
  rewrite (map_fold_delete_L _ _ k v m); [done | | done].
  intros. lia.
Qed.

Lemma sumOver_insert m k v :
  sumOver g (<[k := v]> m) + from_option g 0 (m !! k) = g v + sumOver g m.
Proof.
  destruct (m !! k) as [old|] eqn:Hk; simpl.
  - rewrite <- insert_delete_eq.
    rewrite sumOver_insert_fresh by apply lookup_delete_eq.
    rewrite (sumOver_delete m k old Hk). lia.
  - rewrite sumOver_insert_fresh by done. lia.
Qed.
End Count.

(** ** [toObject] *)

Section Flat.
Implicit Types (obj : gmap string (list string)) (t key : string).

Lemma toObjectStep_entry obj t :
  toObjectStep obj t =
    <[(flatEntry t).1 :=
        (default [] (obj !! (flatEntry t).1) ++ [(flatEntry t).2])%list]> obj.
Proof.
  unfold toObjectStep, flatEntry.
  destruct (splitTerm t) as [field data].
  destruct (negb (JS.truthy_opt field)); simpl.
  - change (backendFilter "any") with "any". by destruct (obj !! "any").
  - by destruct (obj !! backendFilter (default "" field)).
Qed.

Lemma valuesFor_cons key t tokens :
  valuesFor key (t :: tokens) =
    if String.eqb (flatEntry t).1 key
    then (flatEntry t).2 :: valuesFor key tokens
    else valuesFor key tokens.
Proof.
  unfold valuesFor. simpl. by destruct (String.eqb (flatEntry t).1 key).
Qed.

Lemma fold_toObjectStep_lookup tokens obj key :
  fold_left toObjectStep tokens obj !! key =
    match valuesFor key tokens with
    | [] => obj !! key
    | values => Some (default [] (obj !! key) ++ values)%list
    end.
Proof.
  revert obj. induction tokens as [|t tokens IH]; intros obj; [done |].
  simpl fold_left. rewrite IH, valuesFor_cons, toObjectStep_entry.
  destruct (String.eqb_spec (flatEntry t).1 key) as [-> | Hne].
  - rewrite lookup_insert_eq. simpl.
    destruct (valuesFor key tokens) as [|v values]; [done |].
    by rewrite <- List.app_assoc.
  - by rewrite lookup_insert_ne.
Qed.

Lemma toObject_lookup s key :
  toObject s !! key =
    match valuesFor key (tokenize s) with
    | [] => None
    | values => Some values
    end.
Proof.
  unfold toObject. rewrite fold_toObjectStep_lookup, lookup_empty.
  by destruct (valuesFor key (tokenize s)).
Qed.

Lemma valueCount_step obj t :
  valueCount (toObjectStep obj t) = S (valueCount obj).
Proof.
  rewrite toObjectStep_entry. unfold valueCount.
  pose proof (sumOver_insert (@List.length string) obj (flatEntry t).1
    (default [] (obj !! (flatEntry t).1) ++ [(flatEntry t).2])%list) as H.
  rewrite List.length_app in H.
  destruct (obj !! (flatEntry t).1); simpl in *; lia.
Qed.

Lemma valueCount_fold tokens obj :
  valueCount (fold_left toObjectStep tokens obj) =
    List.length tokens + valueCount obj.
Proof.
  revert obj. induction tokens as [|t tokens IH]; intros obj; [done |].
  simpl. rewrite IH, valueCount_step. lia.
Qed.
End Flat.

(** ** [generateFacetedFilter] *)

Section Facets.
Implicit Types (a : Arrays.t) (t v : string).

Lemma split_at_char c t :
  hasChar c t = true ->
  exists pre post, t = pre ++ String c post /\ hasChar c pre = false.
Proof.
  induction t as [|b t IH]; [done |].
  rewrite hasChar_cons.
  destruct (Ascii.eqb_spec c b) as [<- | Hne]; simpl.
  - intros _. by exists "", t.
  - intros (pre & post & -> & Hpre)%IH. exists (String b pre), post.
    split; [done |]. rewrite hasChar_cons, Hpre.
    by destruct (Ascii.eqb_spec c b).
Qed.

(** The [filter] that [generateFacetedFilter] computes. *)
Lemma filter_colon pre post :
  hasChar ":" pre = false ->
  JS.slice (pre ++ String ":" post) 0
    (JS.indexOf ":" (pre ++ String ":" post)) = pre.
Proof. intros Hpre. by rewrite indexOf_first, slice_before. Qed.

Lemma filter_nocolon t :
  hasChar ":" t = false -> JS.slice t 0 (JS.indexOf ":" t) = dropLast t.
Proof. intros Ht. by rewrite indexOf_absent, slice_minus_one. Qed.

Lemma filter_since t :
  fieldPlusOne t = false ->
  JS.slice t 0 (JS.indexOf ":" t) = "since" ->
  exists v, t = "since:" ++ v.
Proof.
  unfold fieldPlusOne. destruct (hasChar ":" t) eqn:Ht.
  - intros _. apply split_at_char in Ht as (pre & post & -> & Hpre).
    rewrite filter_colon by done. intros ->. by exists post.
  - rewrite filter_nocolon by done. simpl. intros Hf Heq.
    rewrite Heq in Hf. by vm_compute in Hf.
Qed.

Lemma strPrefix_app p t : String.prefix p t = true -> exists v, t = p ++ v.
Proof.
  revert t. induction p as [|a p IH]; intros t; [by exists t |].
  destruct t as [|b t]; [done |]. simpl String.prefix.
  destruct (ascii_dec a b) as [<- |]; [| done].
  intros [v ->]%IH. by exists v.
Qed.

Lemma strPrefix_refl p v : String.prefix p (p ++ v) = true.
Proof.
  induction p as [|a p IH]; [by destruct v |].
  rewrite str_app_cons. simpl. by destruct (ascii_dec a a).
Qed.

Lemma strPrefix_since v : String.prefix "since:" ("since:" ++ v) = true.
Proof. apply strPrefix_refl. Qed.

Lemma filter_of_since v :
  JS.slice ("since:" ++ v) 0 (JS.indexOf ":" ("since:" ++ v)) = "since".
Proof. by apply (filter_colon "since" v). Qed.

Lemma sinceRejected_since v :
  sinceRejected ("since:" ++ v) = bool_decide (durationOf v = None).
Proof.
  unfold sinceRejected. rewrite strPrefix_since.
  change 6%Z with (Z.of_nat (String.length "since:")).
  by rewrite sliceFrom_after.
Qed.

Lemma sinceRejected_filter t :
  sinceRejected t = true -> JS.slice t 0 (JS.indexOf ":" t) = "since".
Proof.
  unfold sinceRejected. intros [[v ->]%strPrefix_app _]%andb_prop.
  apply filter_of_since.
Qed.

Lemma facetStep_since a v :
  facetStep a ("since:" ++ v) =
    match durationOf v with
    | Some d => pushSince a (Num (JS.mul (JS.int d.1) (JS.Int d.2)))
    | None => a
    end.
Proof.
  unfold facetStep. rewrite filter_of_since.
  change (String.eqb "since" "quote") with false.
  change (String.eqb "since" "since") with true. cbv iota.
  rewrite sinceSeconds_duration. by destruct (durationOf v).
Qed.

Lemma arrayCount_facetRecord a : termCount (facetRecord a) = arrayCount a.
Proof.
  unfold termCount, facetRecord, arrayCount.
  rewrite <- insert_empty.
  rewrite !sumOver_insert_fresh by done. rewrite sumOver_empty. simpl. lia.
Qed.

(** Each token goes to exactly one facet, or is a rejected [since:]
    token and goes nowhere. *)
Lemma facetStep_cases a t :
  fieldPlusOne t = false ->
  (sinceRejected t = true /\ facetStep a t = a) \/
  (sinceRejected t = false /\
   exists key x, In key facetKeys /\
     facetRecord (facetStep a t) = alter (pushTerm x) key (facetRecord a)).
Proof.
  intros Ht. unfold facetStep.
  set (filter := JS.slice t 0 (JS.indexOf ":" t)).
  set (fieldValue := JS.sliceFrom t _).
  destruct (String.eqb_spec filter "since") as [Hsince | Hne].
  - destruct (filter_since t Ht Hsince) as [v ->].
    rewrite Hsince. change (String.eqb "since" "quote") with false. cbv iota.
    rewrite sinceRejected_since, sinceSeconds_duration.
    destruct (durationOf v) as [d|]; simpl.
    + right. split; [done |].
      exists "since", (Num (JS.mul (JS.int d.1) (JS.Int d.2))).
      split; [simpl; tauto | done].
    + by left.
  - right. split.
    { destruct (sinceRejected t) eqn:Hr; [| done].
      by apply sinceRejected_filter in Hr. }
    destruct (String.eqb filter "quote");
      [exists "quote", (Str fieldValue); split; [simpl; tauto | done] |].
    destruct (String.eqb filter "tag");
      [exists "tag", (Str fieldValue); split; [simpl; tauto | done] |].
    destruct (String.eqb filter "text");
      [exists "text", (Str fieldValue); split; [simpl; tauto | done] |].
    destruct (String.eqb filter "uri");
      [exists "uri", (Str fieldValue); split; [simpl; tauto | done] |].
    destruct (String.eqb filter "user");
      [exists "user", (Str fieldValue); split; [simpl; tauto | done] |].
    exists "any", (Str t). split; [simpl; tauto | done].
Qed.

Lemma arrayCount_step a t :
  fieldPlusOne t = false ->
  arrayCount (facetStep a t) =
    arrayCount a + (if sinceRejected t then 0 else 1).
Proof.
  intros Ht. unfold facetStep.
  set (filter := JS.slice t 0 (JS.indexOf ":" t)).
  set (fieldValue := JS.sliceFrom t _).
  destruct (String.eqb_spec filter "since") as [Hsince | Hne].
  - destruct (filter_since t Ht Hsince) as [v ->].
    rewrite Hsince. change (String.eqb "since" "quote") with false. cbv iota.
    rewrite sinceRejected_since, sinceSeconds_duration.
    destruct (durationOf v) as [d|]; simpl.
    + unfold arrayCount. simpl. rewrite List.length_app. simpl. lia.
    + lia.
  - assert (sinceRejected t = false) as ->.
    { destruct (sinceRejected t) eqn:Hr; [| done].
      by apply sinceRejected_filter in Hr. }
    repeat (destruct (String.eqb filter _);
      [unfold arrayCount; simpl; rewrite List.length_app; simpl; lia |]).
    unfold arrayCount; simpl; rewrite List.length_app; simpl; lia.
Qed.

Lemma arrayCount_fold tokens a :
  Forall (fun t => fieldPlusOne t = false) tokens ->
  arrayCount (fold_left facetStep tokens a) =
    arrayCount a
    + List.length (List.filter (fun t => negb (sinceRejected t)) tokens).
Proof.
  intros Htokens. revert a.
  induction Htokens as [|t tokens Ht _ IH]; intros a; [simpl; lia |].
  simpl fold_left. rewrite IH, arrayCount_step by done. simpl.
  destruct (sinceRejected t); simpl; lia.
Qed.

Lemma tokenize_not_fieldPlusOne s :
  Forall (fun t => fieldPlusOne t = false) (tokenize s).
Proof.
  rewrite tokenize_rawTokens. apply List.Forall_forall.
  intros t (x & <- & _)%in_map_iff. apply stripFieldValue_not_fieldPlusOne.
Qed.

Lemma facetStep_seedUser x a t :
  facetStep (seedUser x a) t = seedUser x (facetStep a t).
Proof.
  unfold facetStep.
  repeat (destruct (String.eqb _ _); [try done |]); [| done].
  by destruct (sinceSeconds t).
Qed.

Lemma fold_seedUser x tokens a :
  fold_left facetStep tokens (seedUser x a) =
    seedUser x (fold_left facetStep tokens a).
Proof.
  revert a. induction tokens as [|t tokens IH]; intros a; [done |].
  simpl. by rewrite facetStep_seedUser, IH.
Qed.
End Facets.

(** ** Further consequences *)

Section Consequences.
Implicit Types (s t v : string).

Lemma flatEntry_bare t :
  hasChar ":" t = false -> fieldPlusOne t = false -> flatEntry t = ("any", t).
Proof. intros Ht Hf. unfold flatEntry. by rewrite splitTerm_bare. Qed.

Lemma valuesFor_any tokens :
  Forall (fun t => flatEntry t = ("any", t)) tokens ->
  forall key,
    valuesFor key tokens = if String.eqb "any" key then tokens else [].
Proof.
  intros Htokens key. induction Htokens as [|t tokens Ht _ IH].
  - by destruct (String.eqb "any" key).
  - rewrite valuesFor_cons, Ht, IH. cbn [fst snd].
    by destruct (String.eqb "any" key).
Qed.

Lemma stripFieldValue_field f v :
  In f fields ->
  stripFieldValue (f ++ ":" ++ v) = f ++ ":" ++ removeSurroundingQuotes v.
Proof.
  intros Hf. unfold stripFieldValue.
  change (f ++ ":" ++ v) with (f ++ String ":" v).
  rewrite (splitTerm_field _ _ Hf). simpl. by rewrite (fields_truthy _ Hf).
Qed.

(** A bare token that is not a field name plus one character is
    tokenized to itself. *)
Lemma tokenize_bare t :
  JS.truthy t = true -> allChars bareChar t = true ->
  hasChar ":" t = false -> fieldPlusOne t = false ->
  tokenize t = [t].
Proof.
  intros Hne Hbare Hcolon Hslip.
  assert (validLayout true [("", [Bare t])] = true) as Hl
    by (simpl; by rewrite Hne, Hbare).
  pose proof (tokenize_layout _ "" Hl eq_refl) as H.
  cbn [joinRuns renderRun renderPiece map snd] in H.
  rewrite str_app_nil_l, !str_app_nil_r in H. rewrite H.
  unfold unquoted. cbn [map].
  assert (removeSurroundingQuotes t = t) as ->.
  { rewrite removeSurroundingQuotes_spec.
    destruct t as [|a t]; [done |]. unfold surrounded. simpl firstChar.
    simpl in Hbare. apply andb_prop in Hbare as [Ha _].
    destruct (isQuote a) eqn:Hq; [by rewrite (isQuote_not_bare _ Hq) in Ha |].
    by destruct (lastChar _). }
  destruct t as [|a t]; [done |]. simpl.
  by rewrite stripFieldValue_bare.
Qed.
End Consequences.

(** ** The matches of [tokenize] in any text *)

Section ScannerMore.
Variable input : string.
Implicit Types (s ws rest : string).

Lemma length_skipRun inq s :
  String.length (skipRun inq s) <= String.length s.
Proof.
  destruct (skipRun_suffix inq s) as [pre Hpre].
  rewrite Hpre at 2. rewrite str_length_app. lia.
Qed.

Lemma skipRun_shorter s :
  startsRun s = true ->
  String.length (skipRun None s) < String.length s.
Proof.
  destruct s as [|a s]; [done |].
  rewrite startsRun_step, skipRun_step.
  destruct (bareChar a).
  - intros _. pose proof (length_skipRun None (dropWhile bareChar s)).
    pose proof (str_length_dropWhile bareChar s). simpl. lia.
  - destruct (isQuote a); [| done]. simpl.
    destruct (closing a s) as [r|] eqn:Hr.
    + intros _. apply closing_length in Hr.
      pose proof (length_skipRun None r). simpl. lia.
    + rewrite bool_decide_false; [done |]. by intros [? ?].
Qed.

Lemma startsRun_nonBare a s :
  startsRun (String a s) = false -> nonBare a = true.
Proof.
  rewrite startsRun_step. unfold nonBare. by destruct (bareChar a).
Qed.

(** What [search] finds: white space and quotes are skipped, then a
    match that is not empty. *)
Lemma search_Some s at_ rest caps :
  search input tokenRegex s = Some (at_, rest, caps) ->
  exists pre m,
    s = pre ++ at_ /\ at_ = m ++ rest /\ rest = skipRun None at_ /\
    allChars nonBare pre = true /\ JS.truthy m = true /\
    startsRun at_ = true.
Proof.
  induction s as [|a s IH]; rewrite search_step.
  - done.
  - destruct (startsRun (String a s)) eqn:Hstart.
    + intros [= <- <- <-]. exists "".
      destruct (skipRun_suffix None (String a s)) as [m Hm]. exists m.
      repeat split; try done.
      pose proof (skipRun_shorter _ Hstart) as Hlen.
      destruct m; [| done]. rewrite str_app_nil_l in Hm.
      rewrite <- Hm in Hlen. lia.
    + intros (pre & m & -> & Hm & Hrest & Hpre & Hne & Hst)%IH.
      exists (String a pre), m. rewrite str_app_cons.
      repeat split; try done.
      simpl. by rewrite (startsRun_nonBare _ _ Hstart).
Qed.

Lemma search_None s :
  search input tokenRegex s = None -> allChars nonBare s = true.
Proof.
  induction s as [|a s IH]; [done |]. rewrite search_step.
  destruct (startsRun (String a s)) eqn:Hstart; [done |].
  intros Hs%IH. simpl. by rewrite (startsRun_nonBare _ _ Hstart).
Qed.
End ScannerMore.

Lemma search_input i1 i2 s :
  search i1 tokenRegex s = search i2 tokenRegex s.
Proof.
  induction s as [|a s IH]; rewrite (search_step i1), (search_step i2);
    [done |].
  by destruct (startsRun (String a s)).
Qed.

(** The matches depend neither on the counter, once it exceeds the
    length of the text, nor on the text that the search started in. *)
Lemma matchesFrom_fuel n s i1 i2 f1 f2 :
  String.length s <= n ->
  String.length s < f1 -> String.length s < f2 ->
  matchesFrom i1 f1 tokenRegex s = matchesFrom i2 f2 tokenRegex s.
Proof.
  revert s f1 f2. induction n as [|n IH]; intros s f1 f2 Hn H1 H2.
  - destruct s; [| simpl in Hn; lia].
    destruct f1, f2; try lia. by rewrite !matchesFrom_S, !search_empty.
  - destruct f1 as [|f1], f2 as [|f2]; try lia.
    rewrite !matchesFrom_S, (search_input i1 i2).
    destruct (search i2 tokenRegex s) as [[[at_ rest] caps]|] eqn:Hs; [| done].
    apply search_Some in Hs as (pre & m & -> & -> & Hrest & _ & Hm & _).
    cbv zeta. rewrite consumed_app.
    destruct m as [|b m]; [done |]. f_equal.
    rewrite !str_length_app in *. simpl in *.
    apply IH; lia.
Qed.

Lemma tokenMatches_unfold s :
  tokenMatches s =
    match search s tokenRegex s with
    | None => []
    | Some (at_, rest, _) => consumed at_ rest :: tokenMatches rest
    end.
Proof.
  unfold tokenMatches at 1. rewrite matchesFrom_S.
  destruct (search s tokenRegex s) as [[[at_ rest] caps]|] eqn:Hs; [| done].
  apply search_Some in Hs as (pre & m & -> & -> & Hrest & _ & Hm & _).
  cbv zeta. rewrite consumed_app.
  destruct m as [|b m]; [done |]. f_equal.
  unfold tokenMatches.
  apply (matchesFrom_fuel (String.length rest)); [lia | | lia].
  rewrite !str_length_app. simpl. lia.
Qed.

Lemma tokenize_tokenMatches s :
  tokenize s = map stripFieldValue (unquoted (tokenMatches s)).
Proof. apply tokenize_matches. Qed.

Section Runs.
Implicit Types (s t pre post : string).








End Runs.

(** ** Examples *)

Example splitTerm_user :
  splitTerm "user:johndoe" = (Some "user", "johndoe").
Proof. reflexivity. Qed.

Example splitTerm_unrecognized :
  splitTerm "example:text" = (None, "example:text").
Proof. reflexivity. Qed.

Example splitTerm_leading_colon : splitTerm ":foo" = (None, ":foo").
Proof. reflexivity. Qed.

Example splitTerm_first_colon : splitTerm "uri:a:b" = (Some "uri", "a:b").
Proof. reflexivity. Qed.

(** Adjacent pieces make one token, and a quote that is never closed is
    skipped and separates. *)
Example tokenize_joined_pieces :
  tokenize ("a" ++ String dquote "b c" ++ String dquote "d  e")
    = ["a" ++ String dquote "b c" ++ String dquote "d"; "e"].
Proof. reflexivity. Qed.

Example tokenize_unclosed_quote :
  tokenize ("foo" ++ String dquote "bar") = ["foo"; "bar"].
Proof. reflexivity. Qed.

Example tokenize_only_quotes :
  tokenize (String dquote (String dquote " ''")) = [].
Proof. reflexivity. Qed.

(** [group] is a field of the flat map and has no facet. *)
Example toObject_group :
  toObject "group:abc foo" = {[ "group" := ["abc"]; "any" := ["foo"] ]}.
Proof. reflexivity. Qed.

Example facets_group :
  generateFacetedFilter "group:abc foo" noFocus =
    facetRecord
      {| any := [Str "group:abc"; Str "foo"]; quote := []; since := [];
         tag := []; text := []; uri := []; user := [] |}.
Proof. reflexivity. Qed.

Example since_units :
  map sinceSeconds
    ["since:5"; "since:2MIN"; "since:1hour"; "since:1week"; "since:12month";
     "since:1year"; "since:"; "since:1secs"; "since:-1"]
  = [Some (JS.Int 5); Some (JS.Int 120); Some (JS.Int 3600);
     Some (JS.Int 604800); Some (JS.Int 31104000); Some (JS.Int 31536000);
     None; None; None].
Proof. reflexivity. Qed.

(** * The claims of the design document *)

(** C1 (the code departs from the claim).  The claim says that a token
    without colon comes back whole, with no field.  [indexOf] answers -1
    for such a token and [slice(0, -1)] cuts its last character off, so a
    field name followed by one more character is taken for that field
    with an empty value: [splitTerm('tagx')] is [('tag', '')]. *)
Theorem splitTerm_colonless_field_name :
  hasChar ":" "tagx" = false /\ splitTerm "tagx" = (Some "tag", "").
Proof. split; reflexivity. Qed.

(** C2, as the claim states it, fails on the empty input: [toObject('')]
    has no key at all, where the claim demands the key [any]. *)
Lemma toObject_no_tokens_no_any :
  hasChar ":" "" = false /\ toObject "" <> {[ "any" := tokenize "" ]}.
Proof.
  split; [reflexivity |]. intros H.
  by apply (f_equal (fun m => m !! "any")) in H.
Qed.

(** C2, amended.  For every input without colon in which no token is a
    recognized field name followed by one more character, the tokens are
    the quote-stripped matches, and [toObject] returns the empty map when
    there is no token and otherwise the map whose only key is [any], with
    the tokens in their order of appearance. *)
Theorem toObject_colon_free s :
  hasChar ":" s = false ->
  Forall (fun t => fieldPlusOne t = false) (rawTokens s) ->
  tokenize s = rawTokens s /\
  toObject s = match tokenize s with
               | [] => ∅
               | tokens => {[ "any" := tokens ]}
               end.
Proof.
  intros Hs Hslip.
  pose proof (rawTokens_hasChar ":" s Hs) as Hcolon.
  assert (Forall (fun t => hasChar ":" t = false /\ fieldPlusOne t = false)
            (rawTokens s)) as Hboth.
  { apply List.Forall_forall. intros t Ht. split.
    - by apply (proj1 (List.Forall_forall _ _) Hcolon).
    - by apply (proj1 (List.Forall_forall _ _) Hslip). }
  assert (tokenize s = rawTokens s) as Htok.
  { rewrite tokenize_rawTokens. clear -Hboth.
    induction Hboth as [|t l [Ht Hf] _ IH]; [done |].
    simpl. by rewrite IH, stripFieldValue_bare. }
  split; [done |].
  apply map_eq. intros key. rewrite toObject_lookup, Htok.
  rewrite valuesFor_any.
  2:{ eapply Forall_impl; [exact Hboth |]. intros t [Ht Hf].
      by apply flatEntry_bare. }
  destruct (String.eqb_spec "any" key) as [<- | Hne].
  - destruct (rawTokens s); [done |]. by rewrite lookup_singleton_eq.
  - destruct (rawTokens s); [done |]. by rewrite lookup_singleton_ne.
Qed.

Lemma toObject_colon_free_witness :
  tokenize ("foo " ++ String dquote "bar baz" ++ String dquote "  qux")
    = ["foo"; "bar baz"; "qux"] /\
  toObject ("foo " ++ String dquote "bar baz" ++ String dquote "  qux")
    = {[ "any" := ["foo"; "bar baz"; "qux"] ]}.
Proof.
  destruct (toObject_colon_free
              ("foo " ++ String dquote "bar baz" ++ String dquote "  qux"))
    as [H1 H2].
  - reflexivity.
  - vm_compute. repeat constructor.
  - split; [by rewrite H1 | by rewrite H2].
Defined.




(** C4, as the claim states it, fails on its own example: the unit of
    [since:3days] is [days], which is none of the unit words, so the
    value does not match and the [since] facet stays empty. *)
Lemma since_3days_not_accepted :
  generateFacetedFilter "since:3days" noFocus !! "since"
    <> Some {| terms := [Num (JS.Int 259200)]; operator := "and" |}.
Proof. vm_compute. discriminate. Qed.

(** C4, amended.  The tokens of a query that reach the [since] case are
    those of the form [since:] followed by a value.  Such a token is
    accepted exactly when its value is one or more digits, optionally
    followed by one of the unit words sec, min, hour, day, week, month,
    year in any case ([durationOf]); the number pushed to the [since]
    terms is the digits times the seconds of the unit (1, 60, 3600,
    86400, 604800, 2592000, 31536000; seconds when the unit is
    missing), exactly so while the product does not exceed 2^53; a value
    that does not match is dropped and changes no facet.  [since:3day]
    yields [259200], [since:badvalue] nothing. *)
Theorem since_duration :
  (forall s t,
     In t (tokenize s) ->
     JS.slice t 0 (JS.indexOf ":" t) = "since" ->
     exists v, t = "since:" ++ v) /\
  (forall a v n perUnit,
     durationOf v = Some (n, perUnit) ->
     facetStep a ("since:" ++ v) =
       pushSince a (Num (JS.mul (JS.int n) (JS.Int perUnit))) /\
     ((n * perUnit <= JS.maxExact)%N ->
      JS.mul (JS.int n) (JS.Int perUnit) = JS.Int (n * perUnit))) /\
  (forall a v,
     durationOf v = None -> facetStep a ("since:" ++ v) = a) /\
  generateFacetedFilter "since:3day" noFocus =
    facetRecord (pushSince noTerms (Num (JS.Int 259200))) /\
  generateFacetedFilter "since:badvalue" noFocus = facetRecord noTerms.
Proof.
  repeat apply conj.
  - intros s t Ht. apply filter_since.
    by apply (proj1 (List.Forall_forall _ _) (tokenize_not_fieldPlusOne s)).
  - intros a v n perUnit Hd. split.
    { by rewrite facetStep_since, Hd. }
    intros Hle. unfold JS.mul, JS.int.
    assert (n <= JS.maxExact)%N as Hn.
    { destruct perUnit as [|p]; [| nia].
      exfalso. revert Hd. unfold durationOf.
      destruct (negb _); [done |]. destruct (negb _); [done |].
      rewrite lookupUnit_includes.
      destruct (JS.includes unitWords _) eqn:Hu; [| done].
      apply includes_spec in Hu.
      repeat (destruct Hu as [<- | Hu]; [by vm_compute |]). done. }
    apply N.leb_le in Hn as ->. by apply N.leb_le in Hle as ->.
  - intros a v Hd. by rewrite facetStep_since, Hd.
  - reflexivity.
  - reflexivity.
Qed.

Lemma since_duration_witness :
  facetStep noTerms "since:2WEEK" = pushSince noTerms (Num (JS.Int 1209600)) /\
  facetStep noTerms "since:3days" = noTerms /\
  exists v, "since:1h" = "since:" ++ v.
Proof.
  destruct since_duration as (H0 & H1 & H2 & _).
  repeat apply conj.
  - destruct (H1 noTerms "2WEEK" 2%N 604800%N) as [Hstep Hexact];
      [reflexivity |].
    rewrite Hexact in Hstep by (by vm_compute). exact Hstep.
  - apply (H2 noTerms "3days"). reflexivity.
  - apply (H0 "a since:1h"); [simpl; tauto | reflexivity].
Defined.

(** C5.  Every token that [tokenize] returns is filed exactly once in
    each output.  In [generateFacetedFilter] the round for a token either
    appends one term to one of the seven facets and leaves the six others
    as they are, or, for a [since:] token whose value fails the duration
    grammar, changes nothing; so the terms of the result are the focus
    seed plus one per token that is not such a rejected token.  In
    [toObject] every round appends one value under one key, so the
    values of the result are as many as the tokens. *)
Theorem every_token_filed_once s focusFilters :
  (forall t a,
     In t (tokenize s) ->
     if sinceRejected t then facetStep a t = a
     else exists key x,
            In key facetKeys /\
            facetRecord (facetStep a t) =
              alter (pushTerm x) key (facetRecord a)) /\
  termCount (generateFacetedFilter s focusFilters) =
    (if JS.truthy_opt (FocusFilter.user focusFilters) then 1 else 0)
    + List.length
        (List.filter (fun t => negb (sinceRejected t)) (tokenize s)) /\
  (forall t obj,
     exists key value,
       toObjectStep obj t =
         <[key := (default [] (obj !! key) ++ [value])%list]> obj) /\
  valueCount (toObject s) = List.length (tokenize s).
Proof.
  repeat apply conj.
  - intros t a Ht.
    assert (fieldPlusOne t = false) as Hf.
    { by apply (proj1 (List.Forall_forall _ _)
                  (tokenize_not_fieldPlusOne s)). }
    destruct (facetStep_cases a t Hf) as [[-> Hstep] | [-> Hstep]]; done.
  - unfold generateFacetedFilter.
    rewrite arrayCount_facetRecord, arrayCount_fold
      by apply tokenize_not_fieldPlusOne.
    f_equal. unfold arrayCount, initialArrays. simpl.
    by destruct (JS.truthy_opt (FocusFilter.user focusFilters)).
  - intros t obj. eexists _, _. apply toObjectStep_entry.
  - unfold toObject. rewrite valueCount_fold.
    unfold valueCount. rewrite sumOver_empty. lia.
Qed.

Lemma every_token_filed_once_witness :
  (exists key x,
     In key facetKeys /\
     facetRecord (facetStep noTerms "uri:a") =
       alter (pushTerm x) key (facetRecord noTerms)) /\
  facetStep noTerms "since:1fortnight" = noTerms.
Proof.
  destruct (every_token_filed_once "uri:a since:1fortnight" noFocus)
    as (H1 & _).
  split.
  - apply (H1 "uri:a" noTerms). simpl. tauto.
  - apply (H1 "since:1fortnight" noTerms). simpl. tauto.
Defined.

(** C6.  For every input and every focus filter the result has exactly
    the seven keys any, quote, since, tag, text, uri, user; any, quote,
    since, tag and text carry the operator [and], uri and user carry
    [or]; on the empty input every term list is empty. *)
Theorem facet_record_shape s focusFilters :
  let result := generateFacetedFilter s focusFilters in
  dom result = list_to_set facetKeys /\
  operator <$> result !! "any" = Some "and" /\
  operator <$> result !! "quote" = Some "and" /\
  operator <$> result !! "since" = Some "and" /\
  operator <$> result !! "tag" = Some "and" /\
  operator <$> result !! "text" = Some "and" /\
  operator <$> result !! "uri" = Some "or" /\
  operator <$> result !! "user" = Some "or" /\
  generateFacetedFilter "" focusFilters =
    facetRecord (initialArrays focusFilters) /\
  generateFacetedFilter "" noFocus = facetRecord noTerms.
Proof.
  cbv zeta. unfold generateFacetedFilter.
  generalize (fold_left facetStep (tokenize s) (initialArrays focusFilters)).
  intros a. split; [| by repeat split].
  unfold facetRecord. rewrite !dom_insert_L, dom_singleton_L.
  unfold facetKeys. simpl. set_solver.
Qed.

(** C7 (the code departs from the claim).  The claim says that a bare
    token is tokenized to itself.  [tagx] is bare, yet [tokenize] turns
    it into [tag:]: its last stage calls [splitTerm], which takes the
    token for the field [tag] with an empty value (see C1). *)
Theorem tokenize_colonless_field_name :
  JS.truthy "tagx" = true /\ allChars bareChar "tagx" = true /\
  hasChar ":" "tagx" = false /\ tokenize "tagx" = ["tag:"].
Proof. repeat split; reflexivity. Qed.

(** C8, as the claim states it, fails for the focus filter whose user
    value is the empty string: the value is falsy and the user facet is
    not seeded with it. *)
Lemma empty_focus_user_not_seeded :
  terms <$> generateFacetedFilter "foo bar" (focusOn "") !! "user"
    = Some [] /\
  terms <$> generateFacetedFilter "foo bar" (focusOn "") !! "user"
    <> Some [Str ""].
Proof. split; [reflexivity | by vm_compute]. Qed.

(** C8, amended.  For every input and every focus filter whose user
    value is a string that is not empty, the result is the result
    without focus filter with that value put in front of the terms of
    the user facet, before every [user:] term of the query; with the
    query [foo bar] and the user [alice] the user terms are [alice] and
    the any terms are [foo], [bar]. *)
Theorem focus_user_first s u :
  u <> "" ->
  generateFacetedFilter s (focusOn u) =
    alter (seedTerm (Str u)) "user" (generateFacetedFilter s noFocus) /\
  terms <$> generateFacetedFilter "foo bar" (focusOn "alice")
              !! "user" = Some [Str "alice"] /\
  terms <$> generateFacetedFilter "foo bar" (focusOn "alice")
              !! "any" = Some [Str "foo"; Str "bar"].
Proof.
  intros Hu. split; [| by split].
  unfold generateFacetedFilter.
  assert (initialArrays (focusOn u) =
          seedUser (Str u) (initialArrays noFocus)) as ->.
  { unfold initialArrays. simpl. by destruct u. }
  by rewrite fold_seedUser.
Qed.

Lemma focus_user_first_witness :
  terms <$> generateFacetedFilter "user:bob x" (focusOn "alice")
              !! "user" = Some [Str "alice"; Str "bob"].
Proof.
  rewrite (proj1 (focus_user_first "user:bob x" "alice" ltac:(discriminate))).
  reflexivity.
Defined.

(** C9.  [toObject] renames the field [tag] to the key [tags] and no
    other field; under every key the result holds the values of the
    tokens filed under that key, in their order of appearance, and a key
    under which no token is filed is absent; [toObject('tag:x tag:y')]
    is the map with the single key [tags] and the values [x], [y]. *)
Theorem toObject_accumulates :
  backendFilter "tag" = "tags" /\
  (forall field, field <> "tag" -> backendFilter field = field) /\
  (forall obj t,
     toObjectStep obj t =
       <[(flatEntry t).1 :=
           (default [] (obj !! (flatEntry t).1)
            ++ [(flatEntry t).2])%list]> obj) /\
  (forall s key,
     toObject s !! key =
       match valuesFor key (tokenize s) with
       | [] => None
       | values => Some values
       end) /\
  toObject "tag:x tag:y" = {[ "tags" := ["x"; "y"] ]}.
Proof.
  repeat apply conj.
  - done.
  - intros field Hne. unfold backendFilter.
    by destruct (String.eqb_spec field "tag").
  - apply toObjectStep_entry.
  - apply toObject_lookup.
  - done.
Qed.

Lemma toObject_accumulates_witness :
  backendFilter "user" = "user".
Proof.
  apply (proj1 (proj2 toObject_accumulates) "user"). discriminate.
Defined.

(** C10.  A focus filter whose user value is the empty string gives the
    same result as no focus filter: the user array starts empty. *)
Theorem empty_focus_user_ignored s :
  generateFacetedFilter s (focusOn "") =
    generateFacetedFilter s noFocus /\
  user (initialArrays (focusOn "")) = [].
Proof. split; reflexivity. Qed.

(** * Further properties of the code *)

(** ** Auxiliary lemmas *)

Section Trim.
Implicit Types (s ws rest : string) (q a : ascii).

Lemma tokenMatches_blank ws :
  allChars JS.is_space ws = true -> tokenMatches ws = [].
Proof. intros Hws. by rewrite tokenMatches_unfold, search_blank. Qed.

Lemma tokenMatches_leading ws s :
  allChars JS.is_space ws = true -> tokenMatches (ws ++ s) = tokenMatches s.
Proof.
  intros Hws.
  rewrite (tokenMatches_unfold (ws ++ s)), (tokenMatches_unfold s).
  by rewrite search_spaces, (search_input (ws ++ s) s).
Qed.

Lemma closing_spaces q ws :
  isQuote q = true -> allChars JS.is_space ws = true -> closing q ws = None.
Proof.
  intros Hq. induction ws as [|a ws IH]; [done |].
  simpl. intros [Ha Hws]%andb_prop.
  destruct (Ascii.eqb_spec q a) as [-> |]; [| auto].
  by rewrite (space_not_quote _ Ha) in Hq.
Qed.

Lemma closing_app_spaces q s ws :
  isQuote q = true -> allChars JS.is_space ws = true ->
  closing q (s ++ ws) = (fun r => r ++ ws) <$> closing q s.
Proof.
  intros Hq Hws. induction s as [|a s IH].
  - rewrite str_app_nil_l. by rewrite closing_spaces.
  - rewrite str_app_cons. simpl. by destruct (Ascii.eqb q a).
Qed.

Lemma atBreak_spaces ws : allChars JS.is_space ws = true -> atBreak ws = true.
Proof. destruct ws as [|a ws]; [done |]. simpl. by intros [? _]%andb_prop. Qed.

Lemma dropWhile_app_spaces s ws :
  allChars JS.is_space ws = true ->
  dropWhile bareChar (s ++ ws) = dropWhile bareChar s ++ ws.
Proof.
  intros Hws. induction s as [|a s IH].
  - rewrite str_app_nil_l. destruct ws as [|b ws]; [done |].
    simpl in *. apply andb_prop in Hws as [Hb _].
    by rewrite (space_not_bare _ Hb).
  - rewrite str_app_cons. simpl. by destruct (bareChar a).
Qed.

Lemma skipRun_app_spaces n s ws :
  String.length s <= n ->
  allChars JS.is_space ws = true ->
  skipRun None (s ++ ws) = skipRun None s ++ ws.
Proof.
  intros Hn Hws. revert s Hn. induction n as [|n IH]; intros s Hn.
  - destruct s; [| simpl in Hn; lia].
    rewrite str_app_nil_l. by apply skipRun_break, atBreak_spaces.
  - destruct s as [|a s].
    { rewrite str_app_nil_l. by apply skipRun_break, atBreak_spaces. }
    rewrite str_app_cons, !skipRun_step.
    destruct (bareChar a).
    { rewrite dropWhile_app_spaces by done. apply IH.
      pose proof (str_length_dropWhile bareChar s). simpl in Hn. lia. }
    destruct (isQuote a) eqn:Hq; [| done].
    rewrite closing_app_spaces by done.
    destruct (closing a s) as [r|] eqn:Hr; [| done].
    simpl. apply IH. apply closing_length in Hr. simpl in Hn. lia.
Qed.

Lemma startsRun_app_spaces a s ws :
  allChars JS.is_space ws = true ->
  startsRun (String a s ++ ws) = startsRun (String a s).
Proof.
  intros Hws. rewrite str_app_cons, !startsRun_step.
  destruct (bareChar a); [done |].
  destruct (isQuote a) eqn:Hq; [| done].
  rewrite closing_app_spaces by done.
  by destruct (closing a s).
Qed.

Lemma search_app_spaces input s ws :
  allChars JS.is_space ws = true ->
  search input tokenRegex (s ++ ws) =
    (fun e => (e.1.1 ++ ws, e.1.2 ++ ws, e.2)) <$> search input tokenRegex s.
Proof.
  intros Hws. induction s as [|a s IH].
  - rewrite str_app_nil_l, search_blank by done. by rewrite search_empty.
  - rewrite (search_step input (String a s ++ ws)), (search_step input (String a s)).
    rewrite startsRun_app_spaces by done.
    destruct (startsRun (String a s)).
    + by rewrite (skipRun_app_spaces _ (String a s) ws (le_n _) Hws).
    + rewrite str_app_cons. apply IH.
Qed.

Lemma tokenMatches_trailing s ws :
  allChars JS.is_space ws = true -> tokenMatches (s ++ ws) = tokenMatches s.
Proof.
  intros Hws.
  assert (forall n s, String.length s <= n ->
            tokenMatches (s ++ ws) = tokenMatches s) as H; [| by eapply H].
  clear s. induction n as [|n IH]; intros s Hn.
  - destruct s; [| simpl in Hn; lia].
    rewrite str_app_nil_l, tokenMatches_blank by done. by rewrite tokenMatches_blank.
  - rewrite (tokenMatches_unfold (s ++ ws)), (tokenMatches_unfold s).
    rewrite (search_input (s ++ ws) s), search_app_spaces by done.
    destruct (search s tokenRegex s) as [[[at_ rest] caps]|] eqn:Hs; [| done].
    apply search_Some in Hs as (pre & m & -> & -> & Hrest & _ & Hm & _).
    simpl. rewrite str_app_assoc, !consumed_app. f_equal.
    apply IH. rewrite !str_length_app in Hn.
    destruct m; [done |]. simpl in Hn. lia.
Qed.
End Trim.

(** The text is the matches, in order, with gaps of white space and
    quotes between them. *)
Lemma tokenMatches_weave s :
  exists l last,
    s = weave l last /\ map snd l = tokenMatches s /\
    Forall (fun e => allChars nonBare e.1 = true /\ JS.truthy e.2 = true) l /\
    allChars nonBare last = true.
Proof.
  assert (forall n s, String.length s <= n ->
    exists l last,
      s = weave l last /\ map snd l = tokenMatches s /\
      Forall (fun e => allChars nonBare e.1 = true /\ JS.truthy e.2 = true) l /\
      allChars nonBare last = true) as H; [| by eapply H].
  clear s. induction n as [|n IH]; intros s Hn.
  - destruct s; [| simpl in Hn; lia]. exists [], "".
    by rewrite tokenMatches_unfold, search_empty.
  - rewrite tokenMatches_unfold.
    destruct (search s tokenRegex s) as [[[at_ rest] caps]|] eqn:Hs.
    + apply search_Some in Hs as (pre & m & -> & -> & Hrest & Hpre & Hm & _).
      destruct (IH rest) as (l & last & Hw & Hl & Hall & Hlast).
      { rewrite !str_length_app in Hn. destruct m; [done |]. simpl in Hn. lia. }
      exists ((pre, m) :: l), last. rewrite consumed_app.
      repeat split; try done.
      * simpl. by rewrite <- Hw.
      * simpl. by rewrite Hl.
      * by constructor.
    + exists [], s. repeat split; try done. by apply search_None in Hs.
Qed.

Section TokensMore.
Implicit Types (s t w ws rest : string) (q a : ascii).

Lemma allChars_app p s t :
  allChars p (s ++ t) = allChars p s && allChars p t.
Proof.
  induction s as [|a s IH]; [done |].
  rewrite str_app_cons. simpl. rewrite IH. by destruct (p a).
Qed.

Lemma closing_bare q w :
  isQuote q = true -> allChars bareChar w = true -> closing q w = None.
Proof.
  intros Hq. induction w as [|a w IH]; [done |].
  simpl. intros [Ha Hw]%andb_prop.
  destruct (Ascii.eqb_spec q a) as [-> |]; [| auto].
  by rewrite (isQuote_not_bare _ Hq) in Ha.
Qed.

Lemma removeSurroundingQuotes_bare w :
  allChars bareChar w = true -> removeSurroundingQuotes w = w.
Proof.
  intros Hw. rewrite removeSurroundingQuotes_spec.
  destruct w as [|a w]; [done |]. unfold surrounded. simpl firstChar.
  simpl in Hw. apply andb_prop in Hw as [Ha _].
  destruct (isQuote a) eqn:Hq; [by rewrite (isQuote_not_bare _ Hq) in Ha |].
  by destruct (lastChar _).
Qed.

Lemma startsRun_bare w s :
  JS.truthy w = true -> allChars bareChar w = true ->
  startsRun (w ++ s) = true.
Proof.
  destruct w as [|a w]; [done |]. intros _ Hw.
  simpl in Hw. apply andb_prop in Hw as [Ha _].
  by rewrite str_app_cons, startsRun_step, Ha.
Qed.

Lemma tokenMatches_word w :
  JS.truthy w = true -> allChars bareChar w = true -> tokenMatches w = [w].
Proof.
  intros Hne Hw. rewrite tokenMatches_unfold, search_step.
  assert (startsRun w = true) as ->.
  { rewrite <- (str_app_nil_r w). by apply startsRun_bare. }
  assert (skipRun None w = "") as ->.
  { rewrite <- (str_app_nil_r w). by rewrite skipRun_bare. }
  rewrite consumed_all.
  by rewrite tokenMatches_unfold, search_empty.
Qed.

(** A quote that is never closed ends the word before it, is skipped,
    and the word after it is a match of its own. *)
Lemma tokenMatches_unclosed w1 q w2 :
  JS.truthy w1 = true -> allChars bareChar w1 = true ->
  isQuote q = true ->
  JS.truthy w2 = true -> allChars bareChar w2 = true ->
  tokenMatches (w1 ++ String q w2) = [w1; w2].
Proof.
  intros Hne1 Hw1 Hq Hne2 Hw2.
  assert (skipRun None (String q w2) = String q w2) as Hstop.
  { by rewrite skipRun_step, (isQuote_not_bare _ Hq), Hq, closing_bare. }
  rewrite tokenMatches_unfold, search_step, startsRun_bare by done.
  rewrite skipRun_bare, Hstop, consumed_app by done. f_equal.
  rewrite tokenMatches_unfold, search_step, startsRun_step.
  rewrite (isQuote_not_bare _ Hq), Hq, closing_bare by done.
  rewrite bool_decide_false by (by intros [? ?]). simpl orb. cbv iota.
  rewrite (search_input (String q w2) w2), <- tokenMatches_unfold.
  by apply tokenMatches_word.
Qed.

Lemma unquoted_bare l :
  Forall (fun w => JS.truthy w = true /\ allChars bareChar w = true) l ->
  unquoted l = l.
Proof.
  unfold unquoted. induction 1 as [|w l [Hne Hw] _ IH]; [done |].
  simpl. rewrite removeSurroundingQuotes_bare by done.
  destruct w; [done |]. simpl. by rewrite IH.
Qed.

Lemma stripFieldValue_quote_free t :
  allChars bareChar t = true -> fieldPlusOne t = false ->
  stripFieldValue t = t.
Proof.
  intros Ht Hf.
  destruct (hasChar ":" t) eqn:Hc; [| by apply stripFieldValue_bare].
  apply split_at_char in Hc as (pre & post & -> & Hpre).
  rewrite allChars_app in Ht. apply andb_prop in Ht as [_ Hpost].
  simpl in Hpost.
  unfold stripFieldValue. rewrite splitTerm_colon by done.
  destruct (JS.truthy pre && JS.includes fields pre) eqn:Hp; [| done].
  apply andb_prop in Hp as [Hp _]. simpl. rewrite Hp.
  by rewrite removeSurroundingQuotes_bare.
Qed.

Lemma tokenize_word t :
  JS.truthy t = true -> allChars bareChar t = true ->
  fieldPlusOne t = false -> tokenize t = [t].
Proof.
  intros Hne Ht Hf.
  rewrite tokenize_tokenMatches, tokenMatches_word by done.
  rewrite unquoted_bare by (by repeat constructor).
  simpl. by rewrite stripFieldValue_quote_free.
Qed.

Lemma joinRuns_app l1 l2 trailing :
  joinRuns (l1 ++ l2) trailing = joinRuns l1 (joinRuns l2 trailing).
Proof.
  induction l1 as [|[ws r] l1 IH]; [done |]. simpl. by rewrite IH.
Qed.

Lemma validLayout_first l : validLayout false l = true -> validLayout true l = true.
Proof.
  destruct l as [|[ws r] l]; [done |]. simpl.
  intros [[[-> _]%andb_prop ->]%andb_prop ->]%andb_prop. done.
Qed.

Lemma validLayout_app first l1 l2 :
  validLayout first l1 = true -> validLayout false l2 = true ->
  validLayout first (l1 ++ l2) = true.
Proof.
  revert first. induction l1 as [|[ws r] l1 IH]; intros first H1 H2.
  - destruct first; [by apply validLayout_first | done].
  - simpl in *. apply andb_prop in H1 as [-> H1]. by rewrite IH.
Qed.
End TokensMore.

Section FlatMore.
Implicit Types (s t f v key : string) (obj : gmap string (list string)).

Lemma flatEntry_key t : In (flatEntry t).1 flatKeys.
Proof.
  unfold flatEntry. destruct (splitTerm t) as [[f|] data] eqn:Hs.
  - apply splitTerm_Some in Hs as Hf. cbn [JS.truthy_opt].
    rewrite (fields_truthy _ Hf). simpl.
    repeat (destruct Hf as [<- | Hf]; [simpl; tauto |]). done.
  - simpl. tauto.
Qed.

Lemma flatEntry_field f v :
  In f fields -> flatEntry (f ++ ":" ++ v) = (backendFilter f, v).
Proof.
  intros Hf. unfold flatEntry.
  change (f ++ ":" ++ v) with (f ++ String ":" v).
  rewrite (splitTerm_field _ _ Hf). simpl. by rewrite (fields_truthy _ Hf).
Qed.

Lemma valuesFor_app key l1 l2 :
  valuesFor key (l1 ++ l2) = (valuesFor key l1 ++ valuesFor key l2)%list.
Proof.
  unfold valuesFor. by rewrite List.map_app, List.filter_app, List.map_app.
Qed.

Lemma valuesFor_In key tokens v :
  In v (valuesFor key tokens) ->
  exists t, In t tokens /\ flatEntry t = (key, v).
Proof.
  unfold valuesFor.
  intros ([k v'] & <- & [(t & Ht & Hin)%in_map_iff Hk]%filter_In)%in_map_iff.
  exists t. split; [done |]. rewrite Ht. simpl in *.
  by apply String.eqb_eq in Hk as ->.
Qed.

Lemma toObject_Some s key values :
  toObject s !! key = Some values -> In key flatKeys /\ values <> [].
Proof.
  rewrite toObject_lookup.
  destruct (valuesFor key (tokenize s)) as [|v vs] eqn:Hv; [done |].
  intros [= <-]. split; [| done].
  destruct (valuesFor_In key (tokenize s) v) as (t & _ & Ht).
  { rewrite Hv. by left. }
  pose proof (flatEntry_key t) as Hk. by rewrite Ht in Hk.
Qed.

Lemma toObject_empty_iff s : toObject s = ∅ <-> tokenize s = [].
Proof.
  split.
  - intros He. destruct (tokenize s) as [|t ts] eqn:Ht; [done |].
    apply (f_equal (fun m => m !! (flatEntry t).1)) in He.
    rewrite toObject_lookup, Ht, valuesFor_cons, String.eqb_refl in He.
    by rewrite lookup_empty in He.
  - intros Ht. unfold toObject. by rewrite Ht.
Qed.
End FlatMore.

Section FacetsMore.
Implicit Types (s t f v key : string) (a : Arrays.t).

Lemma sliceFrom_value pre post :
  JS.sliceFrom (pre ++ String ":" post) (Z.of_nat (String.length pre) + 1)
    = post.
Proof.
  change (String ":" post) with (":" ++ post).
  rewrite <- str_app_assoc.
  replace (Z.of_nat (String.length pre) + 1)%Z
    with (Z.of_nat (String.length (pre ++ ":")))
    by (rewrite str_length_app; simpl; lia).
  apply sliceFrom_after.
Qed.

(** One round of the loop, through [route]. *)
Lemma facetStep_route a t :
  facetRecord (facetStep a t) =
    match route t with
    | Some (key, x) => alter (pushTerm x) key (facetRecord a)
    | None => facetRecord a
    end.
Proof.
  unfold facetStep, route.
  generalize (JS.sliceFrom t
    (Z.of_nat (String.length (JS.slice t 0 (JS.indexOf ":" t))) + 1)).
  generalize (JS.slice t 0 (JS.indexOf ":" t)). intros filter fieldValue.
  unfold JS.includes, stringFacets. cbn [existsb].
  destruct (String.eqb_spec filter "quote") as [-> | Hq]; [done |].
  destruct (String.eqb_spec filter "since") as [-> | Hs].
  { cbn [orb]. change (String.eqb "since" _) with false. cbn [orb].
    by destruct (sinceSeconds t). }
  destruct (String.eqb_spec filter "tag") as [-> | Ht]; [done |].
  destruct (String.eqb_spec filter "text") as [-> | Hx]; [done |].
  destruct (String.eqb_spec filter "uri") as [-> | Hu]; [done |].
  destruct (String.eqb_spec filter "user") as [-> | Hr]; [done |].
  done.
Qed.

Lemma route_key t key x : route t = Some (key, x) -> In key facetKeys.
Proof.
  unfold route.
  destruct (JS.includes stringFacets _) eqn:Hf.
  - intros [= <- _]. apply includes_spec in Hf.
    repeat (destruct Hf as [<- | Hf]; [simpl; tauto |]). done.
  - destruct (String.eqb _ "since").
    + destruct (sinceSeconds t); [| done]. intros [= <- _]. simpl; tauto.
    + intros [= <- _]. simpl; tauto.
Qed.

Lemma route_type t key x :
  route t = Some (key, x) -> isNum x = String.eqb key "since".
Proof.
  unfold route.
  destruct (JS.includes stringFacets _) eqn:Hf.
  - intros [= <- <-]. apply includes_spec in Hf.
    repeat (destruct Hf as [<- | Hf]; [done |]). done.
  - destruct (String.eqb _ "since").
    + destruct (sinceSeconds t); [| done]. by intros [= <- <-].
    + by intros [= <- <-].
Qed.

Lemma facetTerms_push a k x key :
  In k facetKeys ->
  facetTerms (alter (pushTerm x) k (facetRecord a)) key =
    (facetTerms (facetRecord a) key
     ++ if String.eqb k key then [x] else [])%list.
Proof.
  intros Hk. unfold facetTerms. rewrite lookup_alter.
  destruct (String.eqb_spec k key) as [<- | Hne].
  - rewrite decide_True by done.
    repeat (destruct Hk as [<- | Hk]; [done |]). done.
  - rewrite decide_False by done. by rewrite List.app_nil_r.
Qed.

Lemma routed_cons key t tokens :
  routed key (t :: tokens) =
    ((match route t with
      | Some (k, x) => if String.eqb k key then [x] else []
      | None => []
      end) ++ routed key tokens)%list.
Proof.
  unfold routed. simpl. destruct (route t) as [[k x]|]; [| done].
  by destruct (String.eqb k key).
Qed.

Lemma routed_app key l1 l2 :
  routed key (l1 ++ l2) = (routed key l1 ++ routed key l2)%list.
Proof. apply omap_app. Qed.

Lemma facetTerms_fold tokens a key :
  facetTerms (facetRecord (fold_left facetStep tokens a)) key =
    (facetTerms (facetRecord a) key ++ routed key tokens)%list.
Proof.
  revert a. induction tokens as [|t tokens IH]; intros a.
  - by rewrite List.app_nil_r.
  - simpl fold_left. rewrite IH, routed_cons, facetStep_route.
    destruct (route t) as [[k x]|] eqn:Hr; [| done].
    rewrite facetTerms_push by by eapply route_key.
    by rewrite <- List.app_assoc.
Qed.

Lemma facetTerms_initial focusFilters key :
  facetTerms (facetRecord (initialArrays focusFilters)) key =
    if String.eqb key "user" then user (initialArrays focusFilters) else [].
Proof.
  unfold facetTerms, facetRecord.
  destruct (String.eqb_spec key "user") as [-> | Hu]; [done |].
  repeat match goal with
         | |- context [<[?k := _]> _ !! key] =>
             destruct (decide (k = key)) as [<- | ?];
             [done | rewrite lookup_insert_ne by done]
         end.
  by rewrite lookup_singleton_ne by congruence.
Qed.

Lemma facetTerms_result s focusFilters key :
  facetTerms (generateFacetedFilter s focusFilters) key =
    ((if String.eqb key "user" then user (initialArrays focusFilters) else [])
     ++ routed key (tokenize s))%list.
Proof.
  unfold generateFacetedFilter.
  by rewrite facetTerms_fold, facetTerms_initial.
Qed.
End FacetsMore.

Section Routes.
Implicit Types (s t f v key pre post : string) (a : Arrays.t).

Lemma includes_false l x : JS.includes l x = false <-> ~ In x l.
Proof.
  rewrite <- includes_spec. by destruct (JS.includes l x).
Qed.

Lemma stringFacets_fields x : In x stringFacets -> In x fields.
Proof. intros H. repeat (destruct H as [<- | H]; [simpl; tauto |]). done. Qed.

Lemma facetFields_fields x : In x facetFields -> In x fields.
Proof. intros H. repeat (destruct H as [<- | H]; [simpl; tauto |]). done. Qed.

Lemma stringFacets_facetFields x : In x stringFacets -> In x facetFields.
Proof. intros H. repeat (destruct H as [<- | H]; [simpl; tauto |]). done. Qed.

Lemma route_field f v :
  In f stringFacets -> route (f ++ String ":" v) = Some (f, Str v).
Proof.
  intros Hf. unfold route.
  rewrite filter_colon by by apply fields_no_colon, stringFacets_fields.
  rewrite sliceFrom_value. apply includes_spec in Hf. by rewrite Hf.
Qed.

Lemma route_since v :
  route ("since:" ++ v) =
    match sinceSeconds ("since:" ++ v) with
    | Some seconds => Some ("since", Num seconds)
    | None => None
    end.
Proof. unfold route. by rewrite filter_of_since. Qed.

Lemma route_other pre post :
  hasChar ":" pre = false -> ~ In pre facetFields ->
  route (pre ++ String ":" post) = Some ("any", Str (pre ++ String ":" post)).
Proof.
  intros Hpre Hno. unfold route. rewrite filter_colon by done.
  assert (JS.includes stringFacets pre = false) as ->.
  { apply includes_false. intros H. by apply Hno, stringFacets_facetFields. }
  destruct (String.eqb_spec pre "since") as [-> |]; [| done].
  exfalso. apply Hno. simpl. tauto.
Qed.

Lemma route_nocolon t :
  hasChar ":" t = false -> fieldPlusOne t = false ->
  route t = Some ("any", Str t).
Proof.
  intros Ht. unfold fieldPlusOne. rewrite Ht. simpl.
  intros Hf%includes_false. unfold route. rewrite filter_nocolon by done.
  assert (JS.includes stringFacets (dropLast t) = false) as ->.
  { apply includes_false. intros H. by apply Hf, stringFacets_fields. }
  destruct (String.eqb_spec (dropLast t) "since") as [Heq |]; [| done].
  exfalso. apply Hf. rewrite Heq. simpl. tauto.
Qed.

(** For a field with a facet of strings, the two parsers file a token
    alike. *)
Lemma route_flatEntry t key :
  fieldPlusOne t = false -> In key stringFacets ->
  match route t with
  | Some (k, x) => if String.eqb k key then Some x else None
  | None => None
  end =
  if String.eqb (flatEntry t).1 (backendFilter key)
  then Some (Str (flatEntry t).2) else None.
Proof.
  intros Hslip Hkey.
  destruct (hasChar ":" t) eqn:Hc.
  - apply split_at_char in Hc as (pre & post & -> & Hpre).
    unfold flatEntry. rewrite splitTerm_colon by done.
    destruct (JS.truthy pre && JS.includes fields pre) eqn:Hp.
    + apply andb_prop in Hp as [Hne Hin]. apply includes_spec in Hin.
      cbn [JS.truthy_opt]. rewrite Hne. cbn [negb default fst snd].
      destruct (decide (In pre stringFacets)) as [Hs | Hs].
      * rewrite route_field by done.
        repeat (destruct Hs as [<- | Hs];
                [repeat (destruct Hkey as [<- | Hkey]; [done |]); done |]).
        done.
      * assert (pre = "group" \/ pre = "since") as [-> | ->].
        { repeat (destruct Hin as [<- | Hin];
                  [first [by left | by right | exfalso; apply Hs; simpl; tauto] |]).
          done. }
        -- rewrite route_other by (done || simpl; intuition discriminate).
           repeat (destruct Hkey as [<- | Hkey]; [done |]); done.
        -- change ("since" ++ String ":" post) with ("since:" ++ post).
           rewrite route_since.
           destruct (sinceSeconds _);
             repeat (destruct Hkey as [<- | Hkey]; [done |]); done.
    + assert (~ In pre facetFields) as Hno.
      { intros H%facetFields_fields. apply andb_false_iff in Hp as [Hp | Hp].
        - by rewrite (fields_truthy _ H) in Hp.
        - apply includes_false in Hp. done. }
      rewrite route_other by done. cbn [JS.truthy_opt negb fst snd].
      repeat (destruct Hkey as [<- | Hkey]; [done |]); done.
  - rewrite route_nocolon by (done || by unfold fieldPlusOne in *).
    unfold flatEntry. rewrite splitTerm_bare by done.
    cbn [JS.truthy_opt negb fst snd].
    repeat (destruct Hkey as [<- | Hkey]; [done |]); done.
Qed.

Lemma routed_valuesFor tokens key :
  Forall (fun t => fieldPlusOne t = false) tokens ->
  In key stringFacets ->
  routed key tokens = Str <$> valuesFor (backendFilter key) tokens.
Proof.
  intros Htokens Hkey. induction Htokens as [|t tokens Ht _ IH]; [done |].
  rewrite routed_cons, valuesFor_cons, IH.
  pose proof (route_flatEntry t key Ht Hkey) as H.
  destruct (route t) as [[k x]|];
    destruct (String.eqb (flatEntry t).1 (backendFilter key));
    try destruct (String.eqb k key); by inversion H.
Qed.
End Routes.

Section StepsMore.
Implicit Types (s t f v key pre post : string) (a : Arrays.t).

Lemma facetStep_any a t :
  ~ In (JS.slice t 0 (JS.indexOf ":" t)) facetFields ->
  facetStep a t = pushAny a (Str t).
Proof.
  unfold facetStep.
  generalize (JS.sliceFrom t
    (Z.of_nat (String.length (JS.slice t 0 (JS.indexOf ":" t))) + 1)).
  generalize (JS.slice t 0 (JS.indexOf ":" t)). intros filter fieldValue Hno.
  repeat match goal with
         | |- context [String.eqb filter ?k] =>
             destruct (String.eqb_spec filter k) as [Heq | _];
             [exfalso; apply Hno; rewrite Heq; simpl; tauto |]
         end.
  done.
Qed.

Lemma lower_idem c : JS.lower (JS.lower c) = JS.lower c.
Proof. each_char c. Qed.

Lemma toLowerCase_idem s : JS.toLowerCase (JS.toLowerCase s) = JS.toLowerCase s.
Proof.
  induction s as [|c s IH]; [done |]. simpl. by rewrite lower_idem, IH.
Qed.

Lemma matchAll_tokenMatches s :
  default [] (matchAll tokenRegex s) = tokenMatches s.
Proof. unfold matchAll, tokenMatches. by destruct (matchesFrom _ _ _ _). Qed.

Lemma dropLast_one f c : dropLast (f ++ String c "") = f.
Proof. apply dropLast_snoc. Qed.

Lemma hasChar_snoc c s b :
  hasChar c (s ++ String b "") = hasChar c s || Ascii.eqb c b.
Proof. rewrite hasChar_app, hasChar_cons. by rewrite orb_false_r. Qed.
End StepsMore.

Section JoinMore.
Implicit Types (s t f v key : string) (a : Arrays.t).

Lemma joinRuns_trailing l trailing : joinRuns l trailing = joinRuns l "" ++ trailing.
Proof.
  induction l as [|[ws r] l IH]; [by rewrite str_app_nil_l |].
  simpl. by rewrite IH, !str_app_assoc.
Qed.

Lemma unquoted_app l1 l2 : unquoted (l1 ++ l2) = (unquoted l1 ++ unquoted l2)%list.
Proof. unfold unquoted. by rewrite List.map_app, List.filter_app. Qed.

Lemma tokenize_joined l1 l2 trailing :
  validLayout true l1 = true -> validLayout false l2 = true ->
  allChars JS.is_space trailing = true ->
  tokenize (joinRuns l1 "" ++ joinRuns l2 trailing) =
    (tokenize (joinRuns l1 "") ++ tokenize (joinRuns l2 trailing))%list.
Proof.
  intros H1 H2 Ht.
  rewrite <- joinRuns_trailing, <- joinRuns_app.
  rewrite !tokenize_layout
    by (done || by apply validLayout_app || by apply validLayout_first).
  by rewrite List.map_app, unquoted_app, List.map_app.
Qed.

Lemma toObject_of_tokens s key :
  default [] (toObject s !! key) = valuesFor key (tokenize s).
Proof. rewrite toObject_lookup. by destruct (valuesFor key (tokenize s)). Qed.
End JoinMore.

(** ** The properties *)

(** X1.  [splitTerm] undoes the joining of a recognized field, a colon and a
    value, whatever the value holds: further colons stay in the value. *)
Theorem splitTerm_after_join f v :
  In f fields -> splitTerm (f ++ ":" ++ v) = (Some f, v).
Proof. apply splitTerm_field. Qed.

Lemma splitTerm_after_join_witness :
  splitTerm ("uri" ++ ":" ++ "http://example.com/a:b")
    = (Some "uri", "http://example.com/a:b").
Proof. apply splitTerm_after_join. simpl. tauto. Defined.

(** X2.  What [splitTerm] can answer.  A field in the answer is one of the
    seven recognized fields, and then either the term is the field, a colon
    and the data, or the term has no colon, is the field followed by one
    more character, and the data is empty.  With no field in the answer the
    data is the whole term. *)
Theorem splitTerm_result t :
  match splitTerm t with
  | (Some f, data) =>
      In f fields /\
      (t = f ++ ":" ++ data \/
       (hasChar ":" t = false /\ dropLast t = f /\ data = ""))
  | (None, data) => data = t
  end.
Proof.
  destruct (hasChar ":" t) eqn:Hc.
  - apply split_at_char in Hc as (pre & post & -> & Hpre).
    rewrite splitTerm_colon by done.
    destruct (JS.truthy pre && JS.includes fields pre) eqn:Hp; [| done].
    apply andb_prop in Hp as [_ Hp%includes_fields_spec].
    split; [done |]. by left.
  - rewrite splitTerm_nocolon by done.
    destruct (JS.includes fields (dropLast t)) eqn:Hp; [| done].
    apply includes_fields_spec in Hp. split; [done |]. by right.
Qed.

(** X3.  A query of white space only has no tokens: [tokenize] answers the
    empty list, [toObject] the empty object, and [generateFacetedFilter] the
    record of the initial arrays, where at most the focused user is present.
    *)
Theorem blank_query ws focusFilters :
  allChars JS.is_space ws = true ->
  tokenize ws = [] /\ toObject ws = ∅ /\
  generateFacetedFilter ws focusFilters =
    facetRecord (initialArrays focusFilters).
Proof.
  intros Hws.
  assert (tokenize ws = []) as Ht
    by by rewrite tokenize_tokenMatches, tokenMatches_blank.
  unfold toObject, generateFacetedFilter. by rewrite Ht.
Qed.

Lemma blank_query_witness :
  tokenize "   " = [] /\ toObject "   " = ∅ /\
  generateFacetedFilter "   " (focusOn "alice") =
    facetRecord (initialArrays (focusOn "alice")).
Proof. apply blank_query. reflexivity. Defined.

(** X4.  White space around a query changes nothing: the tokens, the flat
    object and the facets are those of the query without it. *)
Theorem tokenize_trim ws1 s ws2 :
  allChars JS.is_space ws1 = true -> allChars JS.is_space ws2 = true ->
  tokenize (ws1 ++ s ++ ws2) = tokenize s /\
  toObject (ws1 ++ s ++ ws2) = toObject s /\
  forall focusFilters,
    generateFacetedFilter (ws1 ++ s ++ ws2) focusFilters =
      generateFacetedFilter s focusFilters.
Proof.
  intros H1 H2.
  assert (tokenize (ws1 ++ s ++ ws2) = tokenize s) as Ht.
  { rewrite !tokenize_tokenMatches.
    by rewrite tokenMatches_leading, tokenMatches_trailing. }
  unfold toObject, generateFacetedFilter. by rewrite Ht.
Qed.

Lemma tokenize_trim_witness :
  tokenize ("  " ++ "tag:a 'b" ++ " ") = tokenize "tag:a 'b".
Proof. apply (tokenize_trim "  " "tag:a 'b" " "); reflexivity. Defined.

(** X5.  The matches of the regular expression of [tokenize] cut the text:
    the text is a gap, a match, a gap, a match and so on, up to a last gap;
    the gaps hold white space and quote characters only, and no match is
    empty.  So every character of the text other than white space and quotes
    lies in some match, and the matches do not overlap. *)
Theorem matches_cover_text s :
  exists l last,
    s = weave l last /\
    map snd l = default [] (matchAll tokenRegex s) /\
    Forall (fun e => allChars nonBare e.1 = true /\ e.2 <> "") l /\
    allChars nonBare last = true.
Proof.
  destruct (tokenMatches_weave s) as (l & last & Hs & Hl & Hall & Hlast).
  exists l, last. rewrite matchAll_tokenMatches.
  repeat split; try done.
  eapply Forall_impl; [exact Hall |]. intros [gap m] [Hg Hm]. split; [done |].
  simpl in *. by destruct m.
Qed.

(** X6.  A quote character that is never closed ends the word before it and
    is dropped: two words joined by one quote character give two tokens. *)
Theorem unclosed_quote_separates w1 q w2 :
  JS.truthy w1 = true -> allChars bareChar w1 = true ->
  isQuote q = true ->
  JS.truthy w2 = true -> allChars bareChar w2 = true ->
  tokenize (w1 ++ String q w2) = [stripFieldValue w1; stripFieldValue w2].
Proof.
  intros Hne1 Hw1 Hq Hne2 Hw2.
  rewrite tokenize_tokenMatches, tokenMatches_unclosed by done.
  by rewrite unquoted_bare by (by repeat constructor).
Qed.

Lemma unclosed_quote_separates_witness :
  tokenize ("it" ++ String "'" "s") = ["it"; "s"].
Proof. apply (unclosed_quote_separates "it" "'" "s"); reflexivity. Defined.

(** X7.  A query that is one closed quoted phrase gives the phrase without
    its quotes as the only token, with the surrounding quotes of a field
    value stripped once more; an empty phrase gives no token. *)
Theorem quoted_phrase_token q body :
  isQuote q = true -> hasChar q body = false ->
  tokenize (String q (body ++ String q "")) =
    if JS.truthy body then [stripFieldValue body] else [].
Proof.
  intros Hq Hbody.
  assert (validLayout true [("", [Quoted q body])] = true) as Hl
    by (simpl; by rewrite Hq, Hbody).
  pose proof (tokenize_layout _ "" Hl eq_refl) as H.
  cbn [joinRuns renderRun renderPiece map snd] in H.
  rewrite str_app_nil_l, !str_app_nil_r in H. rewrite H.
  unfold unquoted. cbn [map].
  rewrite removeSurroundingQuotes_quoted by done.
  by destruct body.
Qed.

Lemma quoted_phrase_token_witness :
  tokenize (String "'" ("tag:foo bar" ++ String "'" "")) = ["tag:foo bar"].
Proof. apply (quoted_phrase_token "'" "tag:foo bar"); reflexivity. Defined.

(** X8.  A token that [tokenize] returns, when it holds no white space and
    no quote character, is tokenized to itself. *)
Theorem tokenize_fixed_point s t :
  In t (tokenize s) -> allChars bareChar t = true -> tokenize t = [t].
Proof.
  intros Ht Hbare. apply tokenize_word; [| done |].
  - by apply (proj1 (List.Forall_forall _ _) (tokenize_truthy s)).
  - by apply (proj1 (List.Forall_forall _ _) (tokenize_not_fieldPlusOne s)).
Qed.

Lemma tokenize_fixed_point_witness : tokenize "tag:" = ["tag:"].
Proof. apply (tokenize_fixed_point "tagx"); [simpl; tauto | reflexivity]. Defined.

(** X9.  A key of the object that [toObject] returns is any or one of the
    backend names of the recognized fields, never tag, and its list of
    values is not empty. *)
Theorem toObject_keys s key values :
  toObject s !! key = Some values ->
  In key flatKeys /\ key <> "tag" /\ values <> [].
Proof.
  intros H. apply toObject_Some in H as [Hk Hv]. repeat split; [done | | done].
  intros ->. simpl in Hk. intuition discriminate.
Qed.

Lemma toObject_keys_witness :
  In "tags" flatKeys /\ "tags" <> "tag" /\ ["a"; "b"] <> [].
Proof. apply (toObject_keys "tag:a x tag:b"). reflexivity. Defined.

(** X10.  [toObject] returns the empty object exactly when the query has no
    tokens. *)
Theorem toObject_empty_exactly s : toObject s = ∅ <-> tokenize s = [].
Proof. apply toObject_empty_iff. Qed.

(** X11.  One round of [toObject] on a recognized field, a colon and a value
    appends the value as it stands under the backend name of the field: a
    since value is not parsed and a group value is kept. *)
Theorem toObject_keeps_value obj f v :
  In f fields ->
  toObjectStep obj (f ++ ":" ++ v) =
    <[backendFilter f :=
        (default [] (obj !! backendFilter f) ++ [v])%list]> obj.
Proof.
  intros Hf. by rewrite toObjectStep_entry, flatEntry_field.
Qed.

Lemma toObject_keeps_value_witness :
  toObjectStep {[ "since" := ["1day"] ]} ("since" ++ ":" ++ "not a duration")
    = {[ "since" := ["1day"; "not a duration"] ]}.
Proof.
  rewrite (toObject_keeps_value {[ "since" := ["1day"] ]} "since"
             "not a duration") by (simpl; tauto).
  reflexivity.
Defined.

(** X12.  One round of the loop of [generateFacetedFilter] on quote, tag,
    text, uri or user, a colon and a value appends the value, all of it
    after the first colon, to the facet of that field and leaves the other
    facets alone. *)
Theorem facet_keeps_value a f v :
  In f stringFacets ->
  facetRecord (facetStep a (f ++ ":" ++ v)) =
    alter (pushTerm (Str v)) f (facetRecord a).
Proof.
  intros Hf. rewrite facetStep_route.
  change (f ++ ":" ++ v) with (f ++ String ":" v).
  by rewrite route_field.
Qed.

Lemma facet_keeps_value_witness :
  facetRecord (facetStep noTerms ("uri" ++ ":" ++ "http://a.org/b:c")) =
    alter (pushTerm (Str "http://a.org/b:c")) "uri" (facetRecord noTerms).
Proof. apply facet_keeps_value. simpl. tauto. Defined.

(** X13.  One round of the loop of [generateFacetedFilter] on a token whose
    part before the first colon is not a field with a facet, such as group
    or the empty string, appends the whole token to the any facet. *)
Theorem facet_other_prefix a pre post :
  hasChar ":" pre = false -> ~ In pre facetFields ->
  facetStep a (pre ++ ":" ++ post) = pushAny a (Str (pre ++ ":" ++ post)).
Proof.
  intros Hpre Hno. apply facetStep_any.
  change (pre ++ ":" ++ post) with (pre ++ String ":" post).
  by rewrite filter_colon.
Qed.

Lemma facet_other_prefix_witness :
  facetStep noTerms ("group" ++ ":" ++ "abc")
    = pushAny noTerms (Str "group:abc") /\
  facetStep noTerms ("" ++ ":" ++ "x") = pushAny noTerms (Str ":x").
Proof.
  split.
  - apply (facet_other_prefix noTerms "group" "abc"); [reflexivity |].
    simpl. intuition discriminate.
  - apply (facet_other_prefix noTerms "" "x"); [reflexivity |].
    simpl. intuition discriminate.
Defined.

(** X14.  One round of the loop of [generateFacetedFilter] on a token
    without colon that is quote, tag, text, uri or user followed by one more
    character appends the empty string to the facet of that field: [indexOf]
    answers -1 and [slice] drops the last character. *)
Theorem facet_slicing_quirk a f c :
  In f stringFacets -> c <> ":"%char ->
  facetRecord (facetStep a (f ++ String c "")) =
    alter (pushTerm (Str "")) f (facetRecord a).
Proof.
  intros Hf Hc. rewrite facetStep_route. unfold route.
  assert (hasChar ":" (f ++ String c "") = false) as Hno.
  { rewrite hasChar_snoc, (fields_no_colon f) by by apply stringFacets_fields.
    rewrite orb_false_l. apply Ascii.eqb_neq. congruence. }
  rewrite filter_nocolon, dropLast_one by done.
  rewrite sliceFrom_end by (rewrite str_length_app; simpl; lia).
  apply includes_spec in Hf. by rewrite Hf.
Qed.

Lemma facet_slicing_quirk_witness :
  facetRecord (facetStep noTerms ("user" ++ String "s" "")) =
    alter (pushTerm (Str "")) "user" (facetRecord noTerms).
Proof. apply facet_slicing_quirk; [simpl; tauto | discriminate]. Defined.

(** X15.  A token of [tokenize] without colon is appended whole to the any
    facet: the tokens of the previous property never come out of [tokenize].
    *)
Theorem query_token_without_colon s t a :
  In t (tokenize s) -> hasChar ":" t = false ->
  facetStep a t = pushAny a (Str t).
Proof.
  intros Ht Hc. apply facetStep_any.
  rewrite filter_nocolon by done.
  pose proof (proj1 (List.Forall_forall _ _) (tokenize_not_fieldPlusOne s) t Ht)
    as Hf.
  unfold fieldPlusOne in Hf. rewrite Hc in Hf. simpl in Hf.
  apply includes_false in Hf. intros H. by apply Hf, facetFields_fields.
Qed.

Lemma query_token_without_colon_witness :
  facetStep noTerms "tex" = pushAny noTerms (Str "tex").
Proof.
  apply (query_token_without_colon "users tex"); [simpl; tauto | reflexivity].
Defined.

(** X16.  The terms of a facet of [generateFacetedFilter] are the terms that
    the tokens of the query contribute to it, in the order of the tokens,
    after the focused user in the user facet. *)
Theorem facet_terms_in_order s focusFilters key :
  facetTerms (generateFacetedFilter s focusFilters) key =
    ((if String.eqb key "user" then user (initialArrays focusFilters) else [])
     ++ routed key (tokenize s))%list.
Proof. apply facetTerms_result. Qed.

(** X17.  The terms of the since facet are numbers and the terms of every
    other facet are strings. *)
Theorem facet_term_types s focusFilters key facet :
  generateFacetedFilter s focusFilters !! key = Some facet ->
  Forall (fun x => isNum x = String.eqb key "since") (terms facet).
Proof.
  intros H.
  assert (terms facet = facetTerms (generateFacetedFilter s focusFilters) key)
    as -> by (unfold facetTerms; by rewrite H).
  rewrite facetTerms_result. apply Forall_app. split.
  - destruct (String.eqb_spec key "user") as [-> | _]; [| done].
    unfold initialArrays. simpl user.
    destruct (JS.truthy_opt _); by repeat constructor.
  - unfold routed. apply Forall_forall. intros x Hx.
    apply list_elem_of_omap in Hx as (t & _ & Hx).
    destruct (route t) as [[k y]|] eqn:Hr; [| done].
    destruct (String.eqb_spec k key) as [<- | _]; [| done].
    injection Hx as <-. by eapply route_type.
Qed.

Lemma facet_term_types_witness :
  Forall (fun x => isNum x = true) [Num (JS.Int 120)].
Proof.
  apply (facet_term_types "since:2min since:soon" noFocus "since"
           {| terms := [Num (JS.Int 120)]; operator := "and" |}).
  reflexivity.
Defined.

(** X18.  For quote, tag, text, uri and user the two parsers agree: without
    focus filter the terms of the facet are the values that [toObject] files
    under the backend name of the field, in the same order. *)
Theorem parsers_agree s key :
  In key stringFacets ->
  facetTerms (generateFacetedFilter s noFocus) key =
    Str <$> default [] (toObject s !! backendFilter key).
Proof.
  intros Hkey. rewrite facetTerms_result, toObject_of_tokens.
  rewrite routed_valuesFor by (done || apply tokenize_not_fieldPlusOne).
  destruct (String.eqb key "user"); done.
Qed.

Lemma parsers_agree_witness :
  facetTerms (generateFacetedFilter "tag:a x tag:b:c" noFocus) "tag" =
    Str <$> default [] (toObject "tag:a x tag:b:c" !! backendFilter "tag").
Proof. apply parsers_agree. simpl. tauto. Defined.

(** X19.  Queries laid out as runs compose: when the second starts with
    white space, the tokens of the two queries put together are the tokens
    of the first followed by those of the second, the flat object is the
    key-wise concatenation of the two flat objects, and the terms of each
    facet are those of the first query followed by those of the second. *)
Theorem queries_compose l1 l2 trailing :
  validLayout true l1 = true -> validLayout false l2 = true ->
  allChars JS.is_space trailing = true ->
  let q1 := joinRuns l1 "" in
  let q2 := joinRuns l2 trailing in
  tokenize (q1 ++ q2) = (tokenize q1 ++ tokenize q2)%list /\
  toObject (q1 ++ q2) = mergeFlat (toObject q1) (toObject q2) /\
  forall focusFilters key,
    facetTerms (generateFacetedFilter (q1 ++ q2) focusFilters) key =
      (facetTerms (generateFacetedFilter q1 focusFilters) key
       ++ facetTerms (generateFacetedFilter q2 noFocus) key)%list.
Proof.
  intros H1 H2 Ht q1 q2.
  pose proof (tokenize_joined l1 l2 trailing H1 H2 Ht) as Hj.
  fold q1 q2 in Hj. repeat split.
  - done.
  - apply map_eq. intros key. unfold mergeFlat. rewrite lookup_union_with.
    rewrite !toObject_lookup, Hj, valuesFor_app.
    destruct (valuesFor key (tokenize q1)), (valuesFor key (tokenize q2));
      try done.
    by rewrite List.app_nil_r.
  - intros focusFilters key. rewrite !facetTerms_result, Hj, routed_app.
    rewrite <- app_assoc. do 2 f_equal.
    by destruct (String.eqb key "user").
Qed.

Lemma queries_compose_witness :
  tokenize ("tag:a" ++ " 'b c' tag:d ") =
    (tokenize "tag:a" ++ tokenize " 'b c' tag:d ")%list.
Proof.
  apply (queries_compose
           [("", [Bare "tag:a"])]
           [(" ", [Quoted "'" "b c"]); (" ", [Bare "tag:d"])] " ");
    reflexivity.
Defined.

(** X20.  The number for a since value does not depend on the case of its
    letters. *)
Theorem since_value_case v :
  sinceSeconds ("since:" ++ v) = sinceSeconds ("since:" ++ JS.toLowerCase v).
Proof.
  unfold sinceSeconds. change 6%Z with (Z.of_nat (String.length "since:")).
  by rewrite !sliceFrom_after, toLowerCase_idem.
Qed.
